(** * u128: a 128-bit unsigned integer made of two 64-bit limbs

    A shallow embedding of [u128.h].  Machine integers are mathematical
    integers with the wrap-around of the C++ unsigned types written out;
    a [u128] is the pair of its limbs. *)

From Stdlib Require Import ZArith Lia Bool List String Ascii.
From Stdlib Require Zbitwise.
Import ListNotations.
Local Open Scope Z_scope.

(** ** Unsigned machine arithmetic *)

(** [uint64_t].  Arithmetic wraps modulo [2^64].  A shift by a literal
    count below 64 is written with the total [shl] / [shr]; a shift whose
    count is computed at run time goes through [shl_rt] / [shr_rt], which
    have no result when the count is not below the width of the type (the
    language leaves that shift undefined). *)
Module U64.
Definition width : Z := 64.
Definition modulus : Z := 2 ^ 64.
Definition max : Z := modulus - 1.
Definition wrap (z : Z) : Z := z mod modulus.
Definition in_range (z : Z) : Prop := 0 <= z < modulus.

Definition add (a b : Z) : Z := wrap (a + b).
Definition mul (a b : Z) : Z := wrap (a * b).
Definition and (a b : Z) : Z := Z.land a b.
Definition or (a b : Z) : Z := Z.lor a b.
Definition shl (a n : Z) : Z := wrap (Z.shiftl a n).
Definition shr (a n : Z) : Z := Z.shiftr a n.
Definition ltb (a b : Z) : bool := a <? b.
Definition eqb (a b : Z) : bool := a =? b.
(** a [bool] promoted to an integer operand *)
Definition of_bool (c : bool) : Z := if c then 1 else 0.
Definition lxor (a b : Z) : Z := Z.lxor a b.
(** [~a] on a 64-bit word *)
Definition lnot (a : Z) : Z := wrap (Z.lnot a).

Definition count_ok (n : Z) : bool := (0 <=? n) && (n <? width).
Definition shl_rt (a n : Z) : option Z :=
  if count_ok n then Some (shl a n) else None.
Definition shr_rt (a n : Z) : option Z :=
  if count_ok n then Some (shr a n) else None.
End U64.

(** [unsigned], the type of a shift count: 32 bits. *)
Module U32.
Definition modulus : Z := 2 ^ 32.
Definition wrap (z : Z) : Z := z mod modulus.
Definition in_range (z : Z) : Prop := 0 <= z < modulus.
Definition sub (a b : Z) : Z := wrap (a - b).
Definition add (a b : Z) : Z := wrap (a + b).
End U32.

(** [unsigned __int128], where the compiler has it. *)
Module U128w.
Definition modulus : Z := 2 ^ 128.
Definition wrap (z : Z) : Z := z mod modulus.
Definition mul (a b : Z) : Z := wrap (a * b).
Definition shr (a n : Z) : Z := Z.shiftr a n.
End U128w.

(** Sequencing of operations that may have no result. *)
Definition bind {A B : Type} (m : option A) (k : A -> option B) : option B :=
  match m with
  | Some a => k a
  | None => None
  end.

Notation "x <- m ;; k" := (bind m (fun x => k))
  (at level 61, m at next level, right associativity).

(** ** The value type *)

(** [struct u128 { u64 lo, hi; }] with the constructor [u128(lo_, hi_)]. *)
Record u128 : Type := mk_u128 { lo : Z; hi : Z }.

(** [u128()] *)
Definition u128_default : u128 := mk_u128 0 0.
(** [explicit u128(u64 lo_)] *)
Definition u128_of_u64 (lo_ : Z) : u128 := mk_u128 lo_ 0.

Definition ZERO : u128 := mk_u128 0 0.
Definition ONE : u128 := mk_u128 1 0.
Definition MAX : u128 := mk_u128 U64.max U64.max.

(** Both limbs are 64-bit words: the values the C++ type can hold. *)
Definition wf (v : u128) : Prop := U64.in_range (lo v) /\ U64.in_range (hi v).

(** The integer a value stands for, [hi * 2^64 + lo]. *)
Definition to_Z (v : u128) : Z := hi v * 2 ^ 64 + lo v.

(** ** Portable 64 x 64 -> 128 multiplication *)

Definition LO (x : Z) : Z := U64.and x 0xFFFFFFFF.
Definition HI (x : Z) : Z := U64.shr x 32.

Definition mul64_portable (a b : Z) : u128 :=
  let p00 := U64.mul (LO a) (LO b) in
  let p01 := U64.mul (LO a) (HI b) in
  let p10 := U64.mul (HI a) (LO b) in
  let p11 := U64.mul (HI a) (HI b) in
  let x := U64.add (U64.add (HI p00) (LO p01)) (LO p10) in
  let y := U64.add (U64.add (U64.add (HI p01) (HI p10)) (LO p11)) (HI x) in
  mk_u128 (U64.or (LO p00) (U64.shl x 32))
          (U64.add y (U64.shl (HI p11) 32)).

(** Add with carry, [u64 + u64 -> u128]. *)
Definition add64 (a b : Z) : u128 :=
  let lo_ := U64.add a b in
  let hi_ := if U64.ltb lo_ a then 1 else 0 in
  mk_u128 lo_ hi_.

(** ** mul64 and its three substrates *)

(** The branch of the conditional compilation in [mul64]: [_MSC_VER],
    [__SIZEOF_INT128__], or neither. *)
Inductive substrate : Type :=
  | MSVC_intrinsic
  | native_int128
  | portable_fallback.

(** Modelled from the spec: the MSVC intrinsic [_umul128] of [<intrin.h>]
    is a compiler built-in with no source in the header.  It is the
    hardware wide multiply: it returns the low 64 bits of the product and
    writes the high 64 bits to the location it is given.  The pair is
    (returned word, word stored through the pointer). *)
Definition _umul128 (a b : Z) : Z * Z :=
  ((a * b) mod 2 ^ 64, (a * b) / 2 ^ 64).

Definition mul64 (s : substrate) (a b : Z) : u128 :=
  match s with
  | MSVC_intrinsic =>
      let '(lo_, hi_) := _umul128 a b in
      mk_u128 lo_ hi_
  | native_int128 =>
      let prod := U128w.mul a b in
      mk_u128 (U64.wrap prod) (U64.wrap (U128w.shr prod 64))
  | portable_fallback => mul64_portable a b
  end.

(** ** Shifts *)

(** [operator<<=].  The result is the new value of [*this]; [nbits] is
    the [unsigned] count. *)
Definition operator_shl_assign (this : u128) (nbits : Z) : option u128 :=
  if nbits =? 0 then Some this
  else if 128 <=? nbits then Some (mk_u128 0 0)
  else
    let '(this1, nbits1) :=
      if 64 <=? nbits
      then (mk_u128 0 (lo this), U32.sub nbits 64)
      else (this, nbits) in
    if 0 <? nbits1 then
      h1 <- U64.shl_rt (hi this1) nbits1 ;;
      h2 <- U64.shr_rt (lo this1) (U32.sub 64 nbits1) ;;
      l <- U64.shl_rt (lo this1) nbits1 ;;
      Some (mk_u128 l (U64.or h1 h2))
    else Some this1.

(** [operator>>=] *)
Definition operator_shr_assign (this : u128) (nbits : Z) : option u128 :=
  if nbits =? 0 then Some this
  else if 128 <=? nbits then Some (mk_u128 0 0)
  else
    let '(this1, nbits1) :=
      if 64 <=? nbits
      then (mk_u128 (hi this) 0, U32.sub nbits 64)
      else (this, nbits) in
    if 0 <? nbits1 then
      l1 <- U64.shr_rt (lo this1) nbits1 ;;
      l2 <- U64.shl_rt (hi this1) (U32.sub 64 nbits1) ;;
      h <- U64.shr_rt (hi this1) nbits1 ;;
      Some (mk_u128 (U64.or l1 l2) h)
    else Some this1.

(** [operator<<] and [operator>>]: the compound form on a copy. *)
Definition operator_shl (this : u128) (nbits : Z) : option u128 :=
  operator_shl_assign this nbits.
Definition operator_shr (this : u128) (nbits : Z) : option u128 :=
  operator_shr_assign this nbits.

(** ** Comparison *)

Definition operator_eq (this o : u128) : bool :=
  U64.eqb (lo this) (lo o) && U64.eqb (hi this) (hi o).
Definition operator_ne (this o : u128) : bool :=
  negb (operator_eq this o).
Definition operator_lt (this o : u128) : bool :=
  U64.ltb (hi this) (hi o)
  || (U64.eqb (hi this) (hi o) && U64.ltb (lo this) (lo o)).
Definition operator_le (this o : u128) : bool := negb (operator_lt o this).
Definition operator_gt (this o : u128) : bool := operator_lt o this.
Definition operator_ge (this o : u128) : bool := negb (operator_lt this o).

(** ** Addition *)

(** [operator+=(const u128&)].  [other.lo] is read again after [lo] has
    been written; every caller in the header passes an [other] that is a
    different object from [*this], which is what this function models. *)
Definition operator_add_assign (this other : u128) : u128 :=
  let lo1 := U64.add (lo this) (lo other) in
  let hi1 :=
    U64.add (hi this)
            (U64.add (hi other) (U64.of_bool (U64.ltb lo1 (lo other)))) in
  mk_u128 lo1 hi1.

(** [operator+=(const u64)] *)
Definition operator_add_assign_u64 (this : u128) (other : Z) : u128 :=
  let lo1 := U64.add (lo this) other in
  let hi1 := U64.add (hi this) (U64.of_bool (U64.ltb lo1 other)) in
  mk_u128 lo1 hi1.

(** [operator+(const u128&)], [operator+(const u64)] and the friend
    [operator+(const u64, const u128&)]: the compound form on a copy. *)
Definition operator_add (this other : u128) : u128 :=
  operator_add_assign this other.
Definition operator_add_u64 (this : u128) (other : Z) : u128 :=
  operator_add_assign_u64 this other.
Definition operator_add_u64_l (a : Z) (b : u128) : u128 :=
  operator_add_assign (u128_of_u64 a) b.

(** ** Multiplication *)

(** [operator*(const u64)] *)
Definition operator_mul_u64 (s : substrate) (this : u128) (other : Z)
  : option u128 :=
  let p_lo := mul64 s (lo this) other in
  let p_hi := mul64 s (hi this) other in
  sh <- operator_shl p_hi 64 ;;
  Some (operator_add p_lo sh).

(** [operator*(const u128&)] *)
Definition operator_mul (s : substrate) (this other : u128) : option u128 :=
  let res := mul64 s (lo this) (lo other) in
  t1 <- operator_shl (mul64 s (lo this) (hi other)) 64 ;;
  let res := operator_add_assign res t1 in
  t2 <- operator_shl (mul64 s (hi this) (lo other)) 64 ;;
  let res := operator_add_assign res t2 in
  Some res.

(** friend [operator*(const u64 a, const u128& b)] *)
Definition operator_mul_u64_l (s : substrate) (a : Z) (b : u128)
  : option u128 :=
  operator_mul_u64 s b a.

(** ** Formatting *)

(** The [numpunct] facet of a locale, as far as integers are concerned:
    the separator and the sizes of the digit groups, counted from the
    least significant digit; the last size repeats, and a size [0]
    stands for a group without limit (a value of the facet that is not
    positive, or [CHAR_MAX]).  No sizes: digits are not grouped. *)
Record numpunct : Type := mk_numpunct {
  thousands_sep : ascii;
  grouping : list nat
}.

(** The classic ["C"] locale. *)
Definition classic_locale : numpunct := mk_numpunct ","%char [].

(** The part of the state of a [std::ostream] that formatting an
    unsigned integer or a string depends on, with the characters
    written so far. *)
Inductive basefield : Type := dec | hex | oct.

Record ostream : Type := mk_ostream {
  str : string;          (* characters written *)
  width : Z;             (* field width of the next insertion *)
  fill : ascii;          (* padding character *)
  base : basefield;      (* std::dec / std::hex / std::oct *)
  left : bool;           (* adjustfield is std::left *)
  loc : numpunct;        (* the numpunct facet of the stream's locale *)
  good : bool            (* no error bit is set *)
}.

(** A freshly constructed [std::ostringstream]: it takes the global
    locale of the process as it is at that moment. *)
Definition ostringstream_new (global : numpunct) : ostream :=
  mk_ostream EmptyString 0 " "%char dec false global true.

(** [os << manipulator]: the stream is threaded from left to right. *)
Notation "os <<< f" := (f os) (at level 50, left associativity, only parsing).

(** The manipulators set a field whatever the state of the stream. *)
Definition set_base (b : basefield) (os : ostream) : ostream :=
  mk_ostream (str os) (width os) (fill os) b (left os) (loc os) (good os).
Definition setfill (c : ascii) (os : ostream) : ostream :=
  mk_ostream (str os) (width os) c (base os) (left os) (loc os) (good os).
Definition setw (n : Z) (os : ostream) : ostream :=
  mk_ostream (str os) n (fill os) (base os) (left os) (loc os) (good os).

Fixpoint replicate (n : nat) (c : ascii) : string :=
  match n with
  | O => EmptyString
  | S n' => String c (replicate n' c)
  end.

(** Padding of a field to the stream's width; the fill goes before the
    text unless the stream is left-adjusted. *)
Definition pad (os : ostream) (s : string) : string :=
  let n := Z.to_nat (width os - Z.of_nat (String.length s)) in
  if left os then (s ++ replicate n (fill os))%string
  else (replicate n (fill os) ++ s)%string.

(** Insertion of a string: padded to the width, which is then reset.
    A stream that is not good writes nothing and stays not good (what
    an exception mask set on the stream would throw is not part of the
    state kept here). *)
Definition put_string (s : string) (os : ostream) : ostream :=
  if good os then
    mk_ostream (str os ++ pad os s)%string 0 (fill os) (base os) (left os)
               (loc os) (good os)
  else os.

Definition radix (b : basefield) : Z :=
  match b with dec => 10 | hex => 16 | oct => 8 end.

(** Digits are lowercase: the [uppercase] flag is never set here. *)
Definition digit_char (d : Z) : ascii :=
  match String.get (Z.to_nat d) "0123456789abcdef" with
  | Some c => c
  | None => "?"%char
  end.

(** The digits of [n], most significant first, without leading zeros
    (a single ["0"] for zero).  [fuel] bounds the number of digits. *)
Fixpoint render_digits (fuel : nat) (r n : Z) (acc : string) : string :=
  match fuel with
  | O => acc
  | S fuel' =>
      let acc1 := String (digit_char (n mod r)) acc in
      if n / r =? 0 then acc1 else render_digits fuel' r (n / r) acc1
  end.

(** A 64-bit word has at most 64 digits in any radix. *)
Definition render_u64 (b : basefield) (n : Z) : string :=
  render_digits 64 (radix b) n EmptyString.

(** The separators of the locale, put between the digit groups.  The
    digits come least significant first and so does the result; [room]
    is what the group being filled still takes, [cur] its size and [gs]
    the sizes of the groups after it. *)
Fixpoint add_grouping (sep : ascii) (gs : list nat) (room cur : nat)
         (digits_rev : list ascii) : list ascii :=
  match digits_rev with
  | [] => []
  | d :: ds =>
      match cur with
      | O => d :: add_grouping sep gs room cur ds
      | S _ =>
          match room with
          | S r => d :: add_grouping sep gs r cur ds
          | O =>
              let next := match gs with [] => cur | g :: _ => g end in
              sep :: d :: add_grouping sep (tl gs) (Nat.pred next) next ds
          end
      end
  end.

(** The digits of an integer as the [num_put] facet writes them in a
    locale, in any base. *)
Definition group_digits (np : numpunct) (digits : string) : string :=
  match grouping np with
  | [] => digits
  | g :: gs =>
      string_of_list_ascii
        (rev (add_grouping (thousands_sep np) gs g g
                (rev (list_ascii_of_string digits))))
  end.

(** Insertion of a [u64]: its digits in the base of the stream, grouped
    as the stream's locale says, then padded as a field. *)
Definition put_u64 (n : Z) (os : ostream) : ostream :=
  put_string (group_digits (loc os) (render_u64 (base os) n)) os.

(** [to_string_hex]; [global] is the global locale of the process at the
    time of the call, which the local stream is constructed with. *)
Definition to_string_hex (global : numpunct) (v : u128) : string :=
  let oss := ostringstream_new global in
  str (oss <<< put_string "0x"
           <<< set_base hex <<< setfill "0"%char
           <<< setw 16 <<< put_u64 (hi v)
           <<< setw 16 <<< put_u64 (lo v)).


(** The hexadecimal form in the words of the specification: [k] digits
    of [n], zero-padded, lowercase, most significant first. *)
Fixpoint spec_hex_digits (k : nat) (n : Z) : string :=
  match k with
  | O => EmptyString
  | S k' => (spec_hex_digits k' (n / 16) ++ String (digit_char (n mod 16)) EmptyString)%string
  end.

Definition spec_hex (v : u128) : string :=
  ("0x" ++ spec_hex_digits 16 (hi v) ++ spec_hex_digits 16 (lo v))%string.




(** ** Bitwise operators and compound multiplication *)

(** [operator~] *)
Definition operator_not (this : u128) : u128 :=
  mk_u128 (U64.lnot (lo this)) (U64.lnot (hi this)).

(** [operator&=], [operator^=], [operator|=]: each limb is combined with
    the same limb of [other] and no limb is read after a write to it, so
    it does not matter whether [other] is [*this]. *)
Definition operator_and_assign (this other : u128) : u128 :=
  mk_u128 (U64.and (lo this) (lo other)) (U64.and (hi this) (hi other)).
Definition operator_xor_assign (this other : u128) : u128 :=
  mk_u128 (U64.lxor (lo this) (lo other)) (U64.lxor (hi this) (hi other)).
Definition operator_or_assign (this other : u128) : u128 :=
  mk_u128 (U64.or (lo this) (lo other)) (U64.or (hi this) (hi other)).

(** [operator&], [operator^], [operator|] *)
Definition operator_and (this other : u128) : u128 :=
  mk_u128 (U64.and (lo this) (lo other)) (U64.and (hi this) (hi other)).
Definition operator_xor (this other : u128) : u128 :=
  mk_u128 (U64.lxor (lo this) (lo other)) (U64.lxor (hi this) (hi other)).
Definition operator_or (this other : u128) : u128 :=
  mk_u128 (U64.or (lo this) (lo other)) (U64.or (hi this) (hi other)).

(** [operator*=(const u128&)]: the product is computed first and then
    assigned. *)
Definition operator_mul_assign (s : substrate) (this other : u128)
  : option u128 :=
  operator_mul s this other.

(** ** operator+= on objects in memory *)

(** Objects of type [u128] by address.  [operator+=] receives [other]
    by reference, so [other] may be the object it is called on. *)
Definition store : Type := nat -> u128.

Definition store_write (st : store) (p : nat) (v : u128) : store :=
  fun q => if Nat.eqb q p then v else st q.

(** [lo += other.lo;] then [hi += other.hi + (lo < other.lo);], every
    read and write going through the two addresses. *)
Definition operator_add_assign_at (st : store) (this other : nat) : store :=
  let st1 :=
    store_write st this
      (mk_u128 (U64.add (lo (st this)) (lo (st other))) (hi (st this))) in
  store_write st1 this
    (mk_u128 (lo (st1 this))
       (U64.add (hi (st1 this))
          (U64.add (hi (st1 other))
             (U64.of_bool (U64.ltb (lo (st1 this)) (lo (st1 other))))))).

(** ** Decimal form *)

(** [std::to_string] of a [u64]: its decimal digits, as the stream
    writes them in base ten. *)
Definition std_to_string (n : Z) : string := render_u64 dec n.

Definition to_string (v : u128) : string :=
  if hi v =? 0 then std_to_string (lo v)
  else (std_to_string (hi v) ++ "_" ++ std_to_string (lo v))%string.

(** A reader for the decimal form: decimal digits, with at most one
    ["_"] that ends the high limb. *)
Definition dec_digit_value (c : ascii) : option Z :=
  let n := Z.of_nat (nat_of_ascii c) in
  if (48 <=? n) && (n <=? 57) then Some (n - 48) else None.

Fixpoint read_decimal_form (acc : Z) (high : option Z) (s : string)
  : option u128 :=
  match s with
  | EmptyString =>
      Some (match high with
            | None => mk_u128 acc 0
            | Some h => mk_u128 acc h
            end)
  | String c s' =>
      if Ascii.eqb c "_"%char then
        match high with
        | None => read_decimal_form 0 (Some acc) s'
        | Some _ => None
        end
      else
        d <- dec_digit_value c ;; read_decimal_form (acc * 10 + d) high s'
  end.

(** ** The self-test of the portable multiplication *)

(** [test_product(a, b, mute)]: the value returned; what is printed when
    [mute] is false does not enter it. *)
Definition test_product (a b : Z) (mute : bool) : bool :=
  let prod := mul64_portable a b in
  let '(lo_, hi_) := _umul128 a b in
  U64.eqb lo_ (lo prod) && U64.eqb hi_ (hi prod).

(** One 64-bit operand of the random loop, from two draws of the
    32-bit random device.  Which of the two draws is made first is left
    to the compiler; here the low half is drawn first. *)
Definition random_operand (d0 d1 : Z) : Z :=
  U64.or d0 (U64.shl d1 32).

(** The random loop, [n] rounds; [rd k] is the [k]-th value the random
    device returns and [i] counts the draws made so far.  The count of
    failures is an [int], far from its bound here. *)
Fixpoint random_rounds (rd : nat -> Z) (n i : nat) (failures : Z) : Z :=
  match n with
  | O => failures
  | S n' =>
      let a := random_operand (rd i) (rd (S i)) in
      let b := random_operand (rd (S (S i))) (rd (S (S (S i)))) in
      random_rounds rd n' (S (S (S (S i))))
        (failures + (if test_product a b true then 0 else 1))
  end.

Definition corner_cases : list (Z * Z) :=
  [ (0, 0); (1, 1); (1, U64.max); (U64.max, 1); (U64.max, U64.max);
    (0x100000001, 0x100000001);
    (0xFFFFFFFFFFFFFFFE, 0xFFFFFFFFFFFFFFFD);
    (0xFFFFFFFFFFFFFFFD, 0xFFFFFFFFFFFFFFFE) ].

(** [test_product()]: the failures of the random loop and of the corner
    cases, and the returned [failures > 0]. *)
Definition test_product_failures (rd : nat -> Z) : Z :=
  fold_left
    (fun failures ab =>
       failures + (if test_product (fst ab) (snd ab) false then 0 else 1))
    corner_cases
    (random_rounds rd (Z.to_nat 10000) 0 0).

Definition test_product_all (rd : nat -> Z) : bool :=
  0 <? test_product_failures rd.

(** ** Hashing *)

(** The mixing step of [std::hash<u128>], on a 64-bit [size_t]. *)
Definition hash_combine (h1 h2 : Z) : Z :=
  U64.lxor h1
    (U64.add (U64.add (U64.add h2 0x9e3779b9) (U64.shl h1 6)) (U64.shr h1 2)).

(** [std::hash<u128>::operator()]; [std_hash] is the library's
    [std::hash<uint64_t>], which the language leaves to the
    implementation. *)
Definition hash_u128 (std_hash : Z -> Z) (v : u128) : Z :=
  let h1 := std_hash (lo v) in
  let h2 := std_hash (hi v) in
  hash_combine h1 h2.

(** ** Values from integers *)

(** The value whose limbs are the low 128 bits of [z]. *)
Definition of_Z (z : Z) : u128 :=
  mk_u128 (z mod 2 ^ 64) ((z / 2 ^ 64) mod 2 ^ 64).

(** ** Generic facts about limbs *)

Lemma modulus64_eq : U64.modulus = 18446744073709551616.
Proof. reflexivity. Qed.

Lemma to_Z_range (v : u128) : wf v -> 0 <= to_Z v < 2 ^ 128.
Proof.
  unfold wf, to_Z, U64.in_range. rewrite modulus64_eq.
  change (2 ^ 64) with 18446744073709551616.
  change (2 ^ 128) with (18446744073709551616 * 18446744073709551616).
  intros [Hl Hh]. nia.
Qed.

Lemma to_Z_inj (u v : u128) : wf u -> wf v -> to_Z u = to_Z v -> u = v.
Proof.
  destruct u as [ul uh], v as [vl vh].
  unfold wf, to_Z, U64.in_range; simpl. rewrite modulus64_eq.
  change (2 ^ 64) with 18446744073709551616.
  intros [Hul Huh] [Hvl Hvh] E.
  assert (uh = vh) by lia. subst. f_equal. lia.
Qed.

(** Two words with no common set bit: or-ing them adds them. *)
Lemma lor_disjoint_add (l h k : Z) :
  0 <= k -> 0 <= l < 2 ^ k -> Z.lor l (h * 2 ^ k) = l + h * 2 ^ k.
Proof.
  intros Hk Hl.
  assert (D : Z.land l (h * 2 ^ k) = 0).
  { apply Z.bits_inj'. intros i Hi.
    rewrite Z.land_spec, Z.bits_0, <- Z.shiftl_mul_pow2 by assumption.
    destruct (Z.ltb_spec i k) as [Lt | Ge].
    - rewrite (Z.shiftl_spec_low h k i Lt). apply andb_false_r.
    - destruct (Z.eq_dec l 0) as [-> | Nz]; [rewrite Z.bits_0; reflexivity | ].
      rewrite (Z.bits_above_log2 l i); [reflexivity | lia | ].
      apply Z.log2_lt_pow2; [lia | ].
      apply Z.lt_le_trans with (2 ^ k); [lia | ].
      apply Z.pow_le_mono_r; lia. }
  rewrite <- (Z.lxor_lor _ _ D). symmetry. apply Z.add_nocarry_lxor, D.
Qed.

Lemma LO_mod (x : Z) : LO x = x mod 2 ^ 32.
Proof.
  unfold LO, U64.and. change 0xFFFFFFFF with (Z.ones 32).
  apply Z.land_ones. lia.
Qed.

Lemma HI_div (x : Z) : HI x = x / 2 ^ 32.
Proof. unfold HI, U64.shr. apply Z.shiftr_div_pow2. lia. Qed.

(** ** mul64_portable is the exact product *)

Section Mul64Portable.
Variables a b : Z.
Hypothesis Ha : U64.in_range a.
Hypothesis Hb : U64.in_range b.

Let B := 4294967296.

Lemma mul64_portable_limbs :
  exists l h : Z,
    mul64_portable a b = mk_u128 l h /\
    0 <= l < B * B /\ 0 <= h < B * B /\ h * (B * B) + l = a * b.
Proof using Ha Hb.
  unfold U64.in_range in Ha, Hb. rewrite modulus64_eq in Ha, Hb.
  unfold mul64_portable, U64.add, U64.mul, U64.or, U64.shl, U64.wrap.
  rewrite !LO_mod, !HI_div, !Z.shiftl_mul_pow2 by lia.
  rewrite modulus64_eq. change (2 ^ 32) with B.
  change 18446744073709551616 with (B * B).
  assert (HB : 0 < B) by (unfold B; lia).
  assert (HBB : 0 < B * B) by (unfold B; lia).
  (* the halves of the operands *)
  pose proof (Z.div_mod a B ltac:(lia)) as Ea.
  pose proof (Z.div_mod b B ltac:(lia)) as Eb.
  pose proof (Z.mod_pos_bound a B HB) as Ra0.
  pose proof (Z.mod_pos_bound b B HB) as Rb0.
  assert (Ra1 : 0 <= a / B < B).
  { split; [apply Z.div_pos; lia | apply Z.div_lt_upper_bound; unfold B in *; lia]. }
  assert (Rb1 : 0 <= b / B < B).
  { split; [apply Z.div_pos; lia | apply Z.div_lt_upper_bound; unfold B in *; lia]. }
  set (a0 := a mod B) in *. set (a1 := a / B) in *.
  set (b0 := b mod B) in *. set (b1 := b / B) in *.
  (* the four partial products do not wrap *)
  assert (P00 : 0 <= a0 * b0 < B * B) by nia.
  assert (P01 : 0 <= a0 * b1 < B * B) by nia.
  assert (P10 : 0 <= a1 * b0 < B * B) by nia.
  assert (P11 : 0 <= a1 * b1 < B * B) by nia.
  rewrite (Z.mod_small (a0 * b0)), (Z.mod_small (a0 * b1)),
          (Z.mod_small (a1 * b0)), (Z.mod_small (a1 * b1)) by assumption.
  assert (Eab : a * b = a1 * b1 * (B * B) + (a0 * b1 + a1 * b0) * B + a0 * b0)
    by (rewrite Ea, Eb at 1; ring).
  set (p00 := a0 * b0) in *. set (p01 := a0 * b1) in *.
  set (p10 := a1 * b0) in *. set (p11 := a1 * b1) in *.
  clearbody p00 p01 p10 p11.
  pose proof (Z.div_mod p00 B ltac:(lia)) as E00.
  pose proof (Z.div_mod p01 B ltac:(lia)) as E01.
  pose proof (Z.div_mod p10 B ltac:(lia)) as E10.
  pose proof (Z.div_mod p11 B ltac:(lia)) as E11.
  pose proof (Z.mod_pos_bound p00 B HB) as L00.
  pose proof (Z.mod_pos_bound p01 B HB) as L01.
  pose proof (Z.mod_pos_bound p10 B HB) as L10.
  pose proof (Z.mod_pos_bound p11 B HB) as L11.
  assert (H00 : 0 <= p00 / B < B)
    by (split; [apply Z.div_pos; lia | apply Z.div_lt_upper_bound; lia]).
  assert (H01 : 0 <= p01 / B < B)
    by (split; [apply Z.div_pos; lia | apply Z.div_lt_upper_bound; lia]).
  assert (H10 : 0 <= p10 / B < B)
    by (split; [apply Z.div_pos; lia | apply Z.div_lt_upper_bound; lia]).
  assert (H11 : 0 <= p11 / B < B)
    by (split; [apply Z.div_pos; lia | apply Z.div_lt_upper_bound; lia]).
  set (l00 := p00 mod B) in *. set (h00 := p00 / B) in *.
  set (l01 := p01 mod B) in *. set (h01 := p01 / B) in *.
  set (l10 := p10 mod B) in *. set (h10 := p10 / B) in *.
  set (l11 := p11 mod B) in *. set (h11 := p11 / B) in *.
  clearbody l00 h00 l01 h01 l10 h10 l11 h11.
  (* the middle accumulator x *)
  assert (BBv : B * B = 18446744073709551616) by reflexivity.
  assert (Bv : B = 4294967296) by reflexivity.
  rewrite (Z.mod_small (h00 + l01)) by lia.
  rewrite (Z.mod_small (h00 + l01 + l10)) by lia.
  set (x := h00 + l01 + l10) in *.
  assert (Dx : x = h00 + l01 + l10) by reflexivity.
  assert (Rx : 0 <= x < 3 * B) by lia.
  pose proof (Z.div_mod x B ltac:(lia)) as Ex.
  pose proof (Z.mod_pos_bound x B HB) as Lx.
  assert (Hx : 0 <= x / B < 3)
    by (split; [apply Z.div_pos; lia | apply Z.div_lt_upper_bound; lia]).
  assert (Sx : (x * B) mod (B * B) = (x mod B) * B).
  { rewrite Z.mul_mod_distr_r by lia. reflexivity. }
  rewrite Sx.
  set (xl := x mod B) in *. set (xh := x / B) in *.
  clearbody xl xh. clearbody x.
  (* the accumulator y and the high word *)
  rewrite (Z.mod_small (h01 + h10)) by lia.
  rewrite (Z.mod_small (h01 + h10 + l11)) by lia.
  rewrite (Z.mod_small (h01 + h10 + l11 + xh)) by lia.
  rewrite (Z.mod_small (h11 * B)) by nia.
  change B with (2 ^ 32) at 1.
  rewrite lor_disjoint_add by (change (2 ^ 32) with B; lia).
  change (2 ^ 32) with B.
  assert (Tot : (h01 + h10 + l11 + xh + h11 * B) * (B * B) + (l00 + xl * B)
                = a * b) by (unfold B in *; lia).
  assert (Rab : 0 <= a * b < (B * B) * (B * B)) by nia.
  assert (Rl : 0 <= l00 + xl * B < B * B) by nia.
  assert (Rh : 0 <= h01 + h10 + l11 + xh + h11 * B < B * B) by nia.
  rewrite (Z.mod_small (h01 + h10 + l11 + xh + h11 * B)) by assumption.
  eexists _, _. split; [reflexivity | ]. repeat split; try lia.
Qed.
End Mul64Portable.

(** The exact product of two 64-bit words, as a pair of limbs. *)
Lemma mul64_portable_spec (a b : Z) :
  U64.in_range a -> U64.in_range b ->
  wf (mul64_portable a b) /\ to_Z (mul64_portable a b) = a * b.
Proof.
  intros Ha Hb.
  destruct (mul64_portable_limbs a b Ha Hb) as (l & h & E & Rl & Rh & Tot).
  rewrite E. unfold wf, to_Z, U64.in_range; simpl. rewrite modulus64_eq.
  change (2 ^ 64) with (4294967296 * 4294967296).
  change 18446744073709551616 with (4294967296 * 4294967296).
  auto.
Qed.

Lemma product_range (a b : Z) :
  U64.in_range a -> U64.in_range b ->
  0 <= a * b < 18446744073709551616 * 18446744073709551616.
Proof.
  unfold U64.in_range. rewrite modulus64_eq. intros Ha Hb. nia.
Qed.

(** ** Every substrate of mul64 computes the same limbs *)

Lemma mul64_spec (s : substrate) (a b : Z) :
  U64.in_range a -> U64.in_range b ->
  wf (mul64 s a b) /\ to_Z (mul64 s a b) = a * b.
Proof.
  intros Ha Hb. pose proof (product_range a b Ha Hb) as R.
  destruct s; simpl.
  - (* the intrinsic *)
    unfold wf, to_Z, U64.in_range; simpl. rewrite modulus64_eq.
    change (2 ^ 64) with 18446744073709551616.
    Z.div_mod_to_equations. lia.
  - (* unsigned __int128 *)
    unfold wf, to_Z, U64.in_range, U128w.mul, U128w.shr, U128w.wrap,
      U128w.modulus, U64.wrap; simpl lo; simpl hi.
    rewrite Z.shiftr_div_pow2 by lia. rewrite modulus64_eq.
    change (2 ^ 128) with (18446744073709551616 * 18446744073709551616).
    change (2 ^ 64) with 18446744073709551616.
    rewrite (Z.mod_small (a * b)) by exact R.
    Z.div_mod_to_equations. lia.
  - apply mul64_portable_spec; assumption.
Qed.

Lemma mul64_substrate_irrelevant (s : substrate) (a b : Z) :
  U64.in_range a -> U64.in_range b -> mul64 s a b = mul64_portable a b.
Proof.
  intros Ha Hb.
  destruct (mul64_spec s a b Ha Hb) as [W E].
  destruct (mul64_portable_spec a b Ha Hb) as [W' E'].
  apply to_Z_inj; congruence.
Qed.

(** C1.  For all 64-bit words [a] and [b], [mul64_portable a b] is the
    exact 128-bit product: its limbs are 64-bit words with
    [hi * 2^64 + lo = a * b].  The fixed boundary cases evaluate to the
    expected limbs: (0,0), (1,1), (1, 2^64-1), (2^64-1, 1),
    (2^64-1, 2^64-1) -> (1, 2^64-2), (2^32+1)^2, and the two
    adjacent-to-max pairs, which give the same value. *)
Theorem mul64_portable_exact :
  (forall a b : Z,
      U64.in_range a -> U64.in_range b ->
      U64.in_range (lo (mul64_portable a b)) /\
      U64.in_range (hi (mul64_portable a b)) /\
      hi (mul64_portable a b) * 2 ^ 64 + lo (mul64_portable a b) = a * b) /\
  mul64_portable 0 0 = mk_u128 0 0 /\
  mul64_portable 1 1 = mk_u128 1 0 /\
  mul64_portable 1 (2 ^ 64 - 1) = mk_u128 (2 ^ 64 - 1) 0 /\
  mul64_portable (2 ^ 64 - 1) 1 = mk_u128 (2 ^ 64 - 1) 0 /\
  mul64_portable (2 ^ 64 - 1) (2 ^ 64 - 1) = mk_u128 1 (2 ^ 64 - 2) /\
  mul64_portable (2 ^ 32 + 1) (2 ^ 32 + 1) = mk_u128 (2 ^ 33 + 1) 1 /\
  mul64_portable (2 ^ 64 - 2) (2 ^ 64 - 3) = mk_u128 6 (2 ^ 64 - 5) /\
  mul64_portable (2 ^ 64 - 3) (2 ^ 64 - 2) = mk_u128 6 (2 ^ 64 - 5).
Proof.
  split.
  - intros a b Ha Hb.
    destruct (mul64_portable_spec a b Ha Hb) as [[Wl Wh] E].
    unfold to_Z in E. auto.
  - repeat split; vm_compute; reflexivity.
Qed.

Lemma mul64_portable_exact_witness :
  U64.in_range (lo (mul64_portable 0xFFFFFFFFFFFFFFFF 0xFFFFFFFFFFFFFFFE)) /\
  U64.in_range (hi (mul64_portable 0xFFFFFFFFFFFFFFFF 0xFFFFFFFFFFFFFFFE)) /\
  hi (mul64_portable 0xFFFFFFFFFFFFFFFF 0xFFFFFFFFFFFFFFFE) * 2 ^ 64
  + lo (mul64_portable 0xFFFFFFFFFFFFFFFF 0xFFFFFFFFFFFFFFFE)
  = 0xFFFFFFFFFFFFFFFF * 0xFFFFFFFFFFFFFFFE.
Proof.
  apply (proj1 mul64_portable_exact); unfold U64.in_range; vm_compute;
    split; congruence.
Defined.

(** C2.  Whichever substrate the build selects (the MSVC intrinsic, the
    native 128-bit integer, or the portable fallback), [mul64 a b] has
    the same two limbs as [mul64_portable a b], for all 64-bit words. *)
Theorem mul64_substrates_agree (s : substrate) (a b : Z) :
  U64.in_range a -> U64.in_range b ->
  lo (mul64 s a b) = lo (mul64_portable a b) /\
  hi (mul64 s a b) = hi (mul64_portable a b) /\
  mul64 s a b = mul64_portable a b.
Proof.
  intros Ha Hb. rewrite (mul64_substrate_irrelevant s a b Ha Hb). auto.
Qed.

Lemma mul64_substrates_agree_witness :
  mul64 MSVC_intrinsic 0xFFFFFFFFFFFFFFFF 0xFFFFFFFFFFFFFFFF
  = mul64_portable 0xFFFFFFFFFFFFFFFF 0xFFFFFFFFFFFFFFFF /\
  mul64 native_int128 0xFFFFFFFFFFFFFFFE 0xFFFFFFFFFFFFFFFD
  = mul64_portable 0xFFFFFFFFFFFFFFFE 0xFFFFFFFFFFFFFFFD.
Proof.
  split.
  - apply (mul64_substrates_agree MSVC_intrinsic);
      unfold U64.in_range; vm_compute; split; congruence.
  - apply (mul64_substrates_agree native_int128);
      unfold U64.in_range; vm_compute; split; congruence.
Defined.

(** ** Shifts *)

Lemma shl_rt_defined (a n : Z) :
  0 <= n < 64 -> U64.shl_rt a n = Some (U64.shl a n).
Proof.
  intros Hn. unfold U64.shl_rt, U64.count_ok, U64.width.
  destruct (Z.leb_spec 0 n); [ | lia].
  destruct (Z.ltb_spec n 64); [reflexivity | lia].
Qed.

Lemma shr_rt_defined (a n : Z) :
  0 <= n < 64 -> U64.shr_rt a n = Some (U64.shr a n).
Proof.
  intros Hn. unfold U64.shr_rt, U64.count_ok, U64.width.
  destruct (Z.leb_spec 0 n); [ | lia].
  destruct (Z.ltb_spec n 64); [reflexivity | lia].
Qed.

Lemma u32_sub_small (a b : Z) : 0 <= a - b < 2 ^ 32 -> U32.sub a b = a - b.
Proof. intros H. unfold U32.sub, U32.wrap, U32.modulus. apply Z.mod_small, H. Qed.

(** The arithmetic of a shift by [m] bits across the limb boundary, with
    [P = 2^m] and [Q = 2^(64-m)]. *)
Section ShiftArith.
Variables P Q l h : Z.
Hypothesis HP : 0 < P.
Hypothesis HQ : 0 < Q.
Hypothesis Hl : 0 <= l < P * Q.
Hypothesis Hh : 0 <= h < P * Q.

Let M := P * Q.

Lemma shl_arith :
  0 <= (l mod Q) * P < M /\
  0 <= l / Q + (h mod Q) * P < M /\
  (l / Q + (h mod Q) * P) * M + (l mod Q) * P
  = ((h * M + l) * P) mod (M * M).
Proof using HP HQ Hl Hh.
  pose proof (Z.div_mod l Q ltac:(lia)) as El.
  pose proof (Z.div_mod h Q ltac:(lia)) as Eh.
  pose proof (Z.mod_pos_bound l Q HQ) as Rl.
  pose proof (Z.mod_pos_bound h Q HQ) as Rh.
  assert (Rlq : 0 <= l / Q < P).
  { split; [apply Z.div_pos; lia | apply Z.div_lt_upper_bound; lia]. }
  assert (Rhq : 0 <= h / Q).
  { apply Z.div_pos; lia. }
  set (lq := l / Q) in *. set (lr := l mod Q) in *.
  set (hq := h / Q) in *. set (hr := h mod Q) in *.
  clearbody lq lr hq hr. unfold M.
  assert (B1 : 0 <= lr * P < P * Q) by nia.
  assert (B2 : 0 <= lq + hr * P < P * Q) by nia.
  split; [exact B1 | split; [exact B2 | ]].
  apply Z.mod_unique_pos with (q := hq).
  - split; [nia | ].
    apply Z.le_lt_trans with ((P * Q - 1) * (P * Q) + (P * Q - 1)); nia.
  - rewrite El, Eh. ring.
Qed.

Lemma shr_arith :
  0 <= l / P + (h mod P) * Q < M /\
  0 <= h / P < M /\
  (h / P) * M + (l / P + (h mod P) * Q) = (h * M + l) / P.
Proof using HP HQ Hl Hh.
  pose proof (Z.div_mod h P ltac:(lia)) as Eh.
  pose proof (Z.mod_pos_bound h P HP) as Rh.
  assert (Rlq : 0 <= l / P < Q).
  { split; [apply Z.div_pos; lia | apply Z.div_lt_upper_bound; lia]. }
  assert (Rhq : 0 <= h / P <= h).
  { split; [apply Z.div_pos; lia | ].
    apply Z.div_le_upper_bound; [lia | nia]. }
  unfold M.
  replace (h * (P * Q) + l) with (h * Q * P + l) by ring.
  rewrite Z.div_add_l by lia.
  set (lq := l / P) in *. set (hq := h / P) in *. set (hr := h mod P) in *.
  clearbody lq hq hr.
  split; [nia | split; [lia | ]].
  rewrite Eh. ring.
Qed.
End ShiftArith.

Lemma pow2_split (m : Z) : 0 <= m <= 64 -> 2 ^ m * 2 ^ (64 - m) = 2 ^ 64.
Proof. intros H. rewrite <- Z.pow_add_r by lia. f_equal. lia. Qed.

Lemma pow2_pos (m : Z) : 0 <= m -> 0 < 2 ^ m.
Proof. intros H. apply Z.pow_pos_nonneg; lia. Qed.

(** The sub-64 step of [operator<<=]: both limbs shift and the bits
    spilled from [lo] are carried into [hi]. *)
Lemma shl_step (l h m : Z) :
  U64.in_range l -> U64.in_range h -> 0 < m < 64 ->
  exists r : u128,
    (h1 <- U64.shl_rt h m ;;
     h2 <- U64.shr_rt l (U32.sub 64 m) ;;
     l1 <- U64.shl_rt l m ;;
     Some (mk_u128 l1 (U64.or h1 h2))) = Some r /\
    wf r /\ to_Z r = ((h * 2 ^ 64 + l) * 2 ^ m) mod 2 ^ 128.
Proof.
  unfold U64.in_range, U64.modulus. intros Hl Hh Hm.
  rewrite u32_sub_small by (change (2 ^ 32) with 4294967296; lia).
  rewrite !shl_rt_defined, shr_rt_defined by lia. cbn [bind].
  eexists. split; [reflexivity | ].
  unfold wf, to_Z, U64.in_range, U64.or, U64.shl, U64.shr, U64.wrap,
    U64.modulus; cbn [lo hi].
  rewrite !Z.shiftl_mul_pow2, Z.shiftr_div_pow2 by lia.
  pose proof (pow2_split m ltac:(lia)) as S.
  pose proof (pow2_pos m ltac:(lia)) as HP.
  pose proof (pow2_pos (64 - m) ltac:(lia)) as HQ.
  assert (E1 : forall z, (z * 2 ^ m) mod 2 ^ 64 = (z mod 2 ^ (64 - m)) * 2 ^ m).
  { intros z. rewrite <- S, (Z.mul_comm (2 ^ m)).
    apply Z.mul_mod_distr_r; lia. }
  rewrite !E1.
  assert (Rlq : 0 <= l / 2 ^ (64 - m) < 2 ^ m).
  { split; [apply Z.div_pos; lia | apply Z.div_lt_upper_bound; lia]. }
  rewrite Z.lor_comm, lor_disjoint_add by lia.
  change (2 ^ 128) with (2 ^ 64 * 2 ^ 64). rewrite <- S.
  destruct (shl_arith (2 ^ m) (2 ^ (64 - m)) l h HP HQ ltac:(lia) ltac:(lia))
    as (B1 & B2 & E).
  repeat split; lia.
Qed.

(** The sub-64 step of [operator>>=]. *)
Lemma shr_step (l h m : Z) :
  U64.in_range l -> U64.in_range h -> 0 < m < 64 ->
  exists r : u128,
    (l1 <- U64.shr_rt l m ;;
     l2 <- U64.shl_rt h (U32.sub 64 m) ;;
     h1 <- U64.shr_rt h m ;;
     Some (mk_u128 (U64.or l1 l2) h1)) = Some r /\
    wf r /\ to_Z r = (h * 2 ^ 64 + l) / 2 ^ m.
Proof.
  unfold U64.in_range, U64.modulus. intros Hl Hh Hm.
  rewrite u32_sub_small by (change (2 ^ 32) with 4294967296; lia).
  rewrite shl_rt_defined, !shr_rt_defined by lia. cbn [bind].
  eexists. split; [reflexivity | ].
  unfold wf, to_Z, U64.in_range, U64.or, U64.shl, U64.shr, U64.wrap,
    U64.modulus; cbn [lo hi].
  rewrite Z.shiftl_mul_pow2, !Z.shiftr_div_pow2 by lia.
  pose proof (pow2_split m ltac:(lia)) as S.
  pose proof (pow2_pos m ltac:(lia)) as HP.
  pose proof (pow2_pos (64 - m) ltac:(lia)) as HQ.
  assert (E1 : (h * 2 ^ (64 - m)) mod 2 ^ 64 = (h mod 2 ^ m) * 2 ^ (64 - m)).
  { rewrite <- S. apply Z.mul_mod_distr_r; lia. }
  rewrite E1.
  assert (Rlq : 0 <= l / 2 ^ m < 2 ^ (64 - m)).
  { split; [apply Z.div_pos; lia | apply Z.div_lt_upper_bound; lia]. }
  rewrite lor_disjoint_add by lia.
  rewrite <- S.
  destruct (shr_arith (2 ^ m) (2 ^ (64 - m)) l h HP HQ ltac:(lia) ltac:(lia))
    as (B1 & B2 & E).
  repeat split; lia.
Qed.

Lemma wf_intro (l h : Z) :
  U64.in_range l -> U64.in_range h -> wf (mk_u128 l h).
Proof. intros Hl Hh. split; assumption. Qed.

Lemma in_range_0 : U64.in_range 0.
Proof. unfold U64.in_range. rewrite modulus64_eq. lia. Qed.

(** [operator<<=] always has a result, and the result is the value
    times [2^nbits], reduced modulo [2^128]. *)
Lemma operator_shl_assign_spec (v : u128) (n : Z) :
  wf v -> 0 <= n ->
  exists r : u128,
    operator_shl_assign v n = Some r /\
    wf r /\ to_Z r = (to_Z v * 2 ^ n) mod 2 ^ 128.
Proof.
  intros W Hn. pose proof (to_Z_range v W) as R.
  pose proof W as [Wl Wh]. unfold operator_shl_assign.
  destruct (Z.eqb_spec n 0) as [-> | N0].
  { exists v. rewrite Z.mul_1_r, Z.mod_small by exact R. auto. }
  destruct (Z.leb_spec 128 n) as [Big | Small].
  { exists (mk_u128 0 0). split; [reflexivity | ].
    split; [apply wf_intro; apply in_range_0 | ].
    replace n with (128 + (n - 128)) by lia.
    rewrite Z.pow_add_r, Z.mul_assoc, (Z.mul_comm (to_Z v)), <- Z.mul_assoc by lia.
    rewrite Z.mul_comm, Z.mod_mul by lia. reflexivity. }
  destruct (Z.leb_spec 64 n) as [Cross | Within].
  - rewrite u32_sub_small by (change (2 ^ 32) with 4294967296; lia).
    assert (E : (to_Z v * 2 ^ n) mod 2 ^ 128
                = ((lo v * 2 ^ 64 + 0) * 2 ^ (n - 64)) mod 2 ^ 128).
    { unfold to_Z. replace n with (64 + (n - 64)) at 1 by lia.
      rewrite Z.pow_add_r by lia.
      replace ((hi v * 2 ^ 64 + lo v) * (2 ^ 64 * 2 ^ (n - 64)))
        with ((lo v * 2 ^ 64 + 0) * 2 ^ (n - 64)
              + hi v * 2 ^ (n - 64) * (2 ^ 64 * 2 ^ 64)) by ring.
      change (2 ^ 64 * 2 ^ 64) with (2 ^ 128).
      apply Z.mod_add. lia. }
    rewrite E. cbn [lo hi].
    destruct (Z.ltb_spec 0 (n - 64)) as [Pos | Zero].
    + apply shl_step; [apply in_range_0 | assumption | lia].
    + replace (n - 64) with 0 by lia.
      exists (mk_u128 0 (lo v)). split; [reflexivity | ].
      split; [apply wf_intro; [apply in_range_0 | assumption] | ].
      rewrite Z.mul_1_r, Z.add_0_r. unfold to_Z; cbn [lo hi].
      rewrite Z.add_0_r. symmetry. apply Z.mod_small.
      unfold U64.in_range in Wl. rewrite modulus64_eq in Wl.
      change (2 ^ 64) with 18446744073709551616.
      change (2 ^ 128) with (18446744073709551616 * 18446744073709551616).
      nia.
  - destruct (Z.ltb_spec 0 n) as [Pos | Zero]; [ | lia].
    unfold to_Z. apply shl_step; [assumption | assumption | lia].
Qed.

(** [operator>>=] always has a result, and the result is the value
    divided by [2^nbits], rounded down. *)
Lemma operator_shr_assign_spec (v : u128) (n : Z) :
  wf v -> 0 <= n ->
  exists r : u128,
    operator_shr_assign v n = Some r /\
    wf r /\ to_Z r = to_Z v / 2 ^ n.
Proof.
  intros W Hn. pose proof (to_Z_range v W) as R.
  pose proof W as [Wl Wh]. unfold operator_shr_assign.
  destruct (Z.eqb_spec n 0) as [-> | N0].
  { exists v. rewrite Z.div_1_r. auto. }
  destruct (Z.leb_spec 128 n) as [Big | Small].
  { exists (mk_u128 0 0). split; [reflexivity | ].
    split; [apply wf_intro; apply in_range_0 | ].
    symmetry. apply Z.div_small. split; [lia | ].
    apply Z.lt_le_trans with (2 ^ 128); [lia | ].
    apply Z.pow_le_mono_r; lia. }
  destruct (Z.leb_spec 64 n) as [Cross | Within].
  - rewrite u32_sub_small by (change (2 ^ 32) with 4294967296; lia).
    assert (E : to_Z v / 2 ^ n = (0 * 2 ^ 64 + hi v) / 2 ^ (n - 64)).
    { unfold to_Z. replace n with (64 + (n - 64)) at 1 by lia.
      rewrite Z.pow_add_r, <- Z.div_div by lia.
      rewrite Z.div_add_l by lia.
      unfold U64.in_range in Wl. rewrite modulus64_eq in Wl.
      change (2 ^ 64) with 18446744073709551616.
      rewrite (Z.div_small (lo v)) by lia.
      f_equal. lia. }
    rewrite E. cbn [lo hi].
    destruct (Z.ltb_spec 0 (n - 64)) as [Pos | Zero].
    + apply shr_step; [assumption | apply in_range_0 | lia].
    + replace (n - 64) with 0 by lia.
      exists (mk_u128 (hi v) 0). split; [reflexivity | ].
      split; [apply wf_intro; [assumption | apply in_range_0] | ].
      rewrite Z.div_1_r. reflexivity.
  - destruct (Z.ltb_spec 0 n) as [Pos | Zero]; [ | lia].
    unfold to_Z. apply shr_step; [assumption | assumption | lia].
Qed.

(** C6.  For every value and every count [n >= 128], [v << n] and
    [v >> n], and the compound forms, give the value (0, 0); the count
    has no upper bound. *)
Theorem shift_saturates (v : u128) (n : Z) :
  128 <= n ->
  operator_shl v n = Some (mk_u128 0 0) /\
  operator_shr v n = Some (mk_u128 0 0) /\
  operator_shl_assign v n = Some (mk_u128 0 0) /\
  operator_shr_assign v n = Some (mk_u128 0 0).
Proof.
  intros Hn.
  unfold operator_shl, operator_shr, operator_shl_assign, operator_shr_assign.
  destruct (Z.eqb_spec n 0) as [-> | N0]; [lia | ].
  destruct (Z.leb_spec 128 n) as [Big | Small]; [ | lia].
  repeat split.
Qed.

Lemma shift_saturates_witness :
  operator_shl MAX 128 = Some ZERO /\
  operator_shr MAX 4294967295 = Some ZERO.
Proof.
  split.
  - apply (shift_saturates MAX 128). lia.
  - apply (shift_saturates MAX 4294967295). lia.
Defined.

(** C7.  Shifting the value one left by exactly 64 bits moves the low
    limb into the high limb: [u128(1) << 64 == u128(0, 1)], the identity
    of the build-time assertion. *)
Theorem shl_64_static_assert :
  operator_shl (u128_of_u64 1) 64 = Some (mk_u128 0 1) /\
  (r <- operator_shl (u128_of_u64 1) 64 ;;
   Some (operator_eq r (mk_u128 0 1))) = Some true.
Proof. split; vm_compute; reflexivity. Qed.

(** C10.  For every value [v] and every count [n], [v << n] has a result,
    the value standing for [to_Z v * 2^n] modulo [2^128], and [v >> n] has
    a result, the value standing for the floor of [to_Z v / 2^n]; in
    particular for [n] in [0, 128), and with the saturation at
    [n >= 128] both operators are total. *)
Theorem shift_semantics (v : u128) (n : Z) :
  wf v -> 0 <= n ->
  (exists r : u128,
      operator_shl v n = Some r /\ wf r /\
      to_Z r = (to_Z v * 2 ^ n) mod 2 ^ 128) /\
  (exists r : u128,
      operator_shr v n = Some r /\ wf r /\
      to_Z r = to_Z v / 2 ^ n).
Proof.
  intros W Hn. split.
  - apply operator_shl_assign_spec; assumption.
  - apply operator_shr_assign_spec; assumption.
Qed.

(** ** Addition *)

Ltac limbs_to_literals :=
  unfold wf, to_Z, U64.in_range, U64.add, U64.wrap, U64.of_bool, U64.ltb in *;
  cbn [lo hi] in *;
  rewrite ?modulus64_eq in *;
  change (2 ^ 128) with 340282366920938463463374607431768211456 in *;
  change (2 ^ 64) with 18446744073709551616 in *.

(** The carry test of [operator+=]: the wrapped sum is below the addend
    exactly when the addition left the 64-bit range. *)
Lemma carry_test (x y : Z) :
  U64.in_range x -> U64.in_range y ->
  U64.ltb (U64.add x y) y = (2 ^ 64 <=? x + y).
Proof.
  intros Hx Hy. limbs_to_literals.
  destruct (Z.leb_spec 18446744073709551616 (x + y));
    destruct (Z.ltb_spec ((x + y) mod 18446744073709551616) y);
    try reflexivity; exfalso; Z.div_mod_to_equations; lia.
Qed.

Lemma operator_add_assign_spec (a b : u128) :
  wf a -> wf b ->
  wf (operator_add_assign a b) /\
  to_Z (operator_add_assign a b) = (to_Z a + to_Z b) mod 2 ^ 128.
Proof.
  intros [Al Ah] [Bl Bh]. unfold operator_add_assign.
  rewrite carry_test by assumption.
  destruct a as [al ah], b as [bl bh]. limbs_to_literals.
  destruct (Z.leb_spec 18446744073709551616 (al + bl));
    Z.div_mod_to_equations; lia.
Qed.

Lemma operator_add_assign_u64_spec (a : u128) (w : Z) :
  wf a -> U64.in_range w ->
  operator_add_assign_u64 a w = operator_add_assign a (mk_u128 w 0).
Proof.
  intros [Al Ah] Hw. unfold operator_add_assign_u64, operator_add_assign.
  cbn [lo hi]. f_equal. f_equal.
  rewrite carry_test by assumption.
  unfold U64.add, U64.wrap, U64.of_bool. rewrite modulus64_eq.
  destruct (2 ^ 64 <=? lo a + w); reflexivity.
Qed.

(** C5.  For all values [a] and [b], [a + b] is the sum of their numeric
    values modulo [2^128]; the low limb is the wrapped sum of the low
    limbs and the high limb receives a carry of 1 exactly when that sum
    wrapped.  Adding a bare word [w] is adding the value [(w, 0)], on
    either side.  In particular [(2^64-1, 0) + (1, 0) = (0, 1)]. *)
Theorem addition_semantics :
  (forall a b : u128,
      wf a -> wf b ->
      wf (operator_add a b) /\
      to_Z (operator_add a b) = (to_Z a + to_Z b) mod 2 ^ 128 /\
      lo (operator_add a b) = (lo a + lo b) mod 2 ^ 64 /\
      hi (operator_add a b)
      = (hi a + hi b + (if 2 ^ 64 <=? lo a + lo b then 1 else 0)) mod 2 ^ 64) /\
  (forall (a : u128) (w : Z),
      wf a -> U64.in_range w ->
      operator_add_u64 a w = operator_add a (mk_u128 w 0) /\
      to_Z (operator_add_u64 a w) = (to_Z a + w) mod 2 ^ 128 /\
      to_Z (operator_add_u64_l w a) = (w + to_Z a) mod 2 ^ 128) /\
  operator_add (mk_u128 (2 ^ 64 - 1) 0) (mk_u128 1 0) = mk_u128 0 1.
Proof.
  split; [ | split].
  - intros a b Wa Wb.
    destruct (operator_add_assign_spec a b Wa Wb) as [W E].
    unfold operator_add. repeat split; try apply W; try exact E.
    unfold operator_add_assign; cbn [hi].
    destruct Wa as [Al Ah], Wb as [Bl Bh].
    rewrite carry_test by assumption.
    unfold U64.add, U64.wrap, U64.of_bool. rewrite modulus64_eq.
    change (2 ^ 64) with 18446744073709551616.
    rewrite Z.add_mod_idemp_r by lia. f_equal. lia.
  - intros a w Wa Hw.
    assert (Ww : wf (mk_u128 w 0)) by (apply wf_intro; [assumption | apply in_range_0]).
    unfold operator_add_u64, operator_add, operator_add_u64_l, u128_of_u64.
    rewrite operator_add_assign_u64_spec by assumption.
    destruct (operator_add_assign_spec a (mk_u128 w 0) Wa Ww) as [_ E1].
    destruct (operator_add_assign_spec (mk_u128 w 0) a Ww Wa) as [_ E2].
    rewrite E1, E2. unfold to_Z at 2 3; cbn [lo hi].
    repeat split; f_equal; lia.
  - vm_compute. reflexivity.
Qed.

Lemma addition_semantics_witness :
  to_Z (operator_add MAX ONE) = (to_Z MAX + to_Z ONE) mod 2 ^ 128 /\
  operator_add_u64 MAX 5 = operator_add MAX (mk_u128 5 0).
Proof.
  split.
  - apply (proj1 addition_semantics MAX ONE);
      unfold wf, U64.in_range; vm_compute; repeat split; congruence.
  - apply (proj1 (proj2 addition_semantics) MAX 5);
      unfold wf, U64.in_range; vm_compute; repeat split; congruence.
Defined.

(** ** Comparison *)

Lemma operator_lt_lex (a b : u128) :
  operator_lt a b = true <->
  hi a < hi b \/ (hi a = hi b /\ lo a < lo b).
Proof.
  unfold operator_lt, U64.ltb, U64.eqb.
  rewrite orb_true_iff, andb_true_iff, !Z.ltb_lt, Z.eqb_eq. reflexivity.
Qed.

Lemma operator_lt_value (a b : u128) :
  wf a -> wf b -> (operator_lt a b = true <-> to_Z a < to_Z b).
Proof.
  intros Wa Wb. rewrite operator_lt_lex.
  destruct a as [al ah], b as [bl bh]. limbs_to_literals. lia.
Qed.

Lemma operator_eq_limbs (a b : u128) :
  operator_eq a b = true <-> lo a = lo b /\ hi a = hi b.
Proof.
  unfold operator_eq, U64.eqb. rewrite andb_true_iff, !Z.eqb_eq. reflexivity.
Qed.

(** C8.  [a == b] holds exactly when both limbs are equal; [a < b] holds
    exactly when [(hi, lo)] of [a] is lexicographically below that of
    [b], which is exactly when [a]'s numeric value is smaller; [!=],
    [<=], [>] and [>=] agree with these two.  In particular
    [(0, 1) > (2^64-1, 0)]. *)
Theorem comparison_semantics :
  (forall a b : u128,
      (operator_eq a b = true <-> lo a = lo b /\ hi a = hi b) /\
      (operator_eq a b = true <-> a = b) /\
      (operator_lt a b = true <->
       hi a < hi b \/ (hi a = hi b /\ lo a < lo b)) /\
      operator_ne a b = negb (operator_eq a b) /\
      operator_gt a b = operator_lt b a /\
      operator_le a b = negb (operator_gt a b) /\
      operator_ge a b = negb (operator_lt a b) /\
      operator_le a b = operator_lt a b || operator_eq a b /\
      operator_ge a b = operator_gt a b || operator_eq a b) /\
  (forall a b : u128,
      wf a -> wf b ->
      (operator_eq a b = true <-> to_Z a = to_Z b) /\
      (operator_ne a b = true <-> to_Z a <> to_Z b) /\
      (operator_lt a b = true <-> to_Z a < to_Z b) /\
      (operator_le a b = true <-> to_Z a <= to_Z b) /\
      (operator_gt a b = true <-> to_Z a > to_Z b) /\
      (operator_ge a b = true <-> to_Z a >= to_Z b)) /\
  operator_gt (mk_u128 0 1) (mk_u128 (2 ^ 64 - 1) 0) = true.
Proof.
  split; [ | split].
  - intros a b.
    assert (Eq : operator_eq a b = true <-> a = b).
    { rewrite operator_eq_limbs. destruct a, b; cbn [lo hi].
      split; [intros [-> ->]; reflexivity | intros E; inversion E; auto]. }
    split; [apply operator_eq_limbs | ].
    split; [exact Eq | ].
    split; [apply operator_lt_lex | ].
    do 4 (split; [reflexivity | ]).
    unfold operator_le, operator_ge, operator_gt, operator_lt, operator_eq,
      U64.ltb, U64.eqb.
    destruct (Z.ltb_spec (hi b) (hi a)), (Z.ltb_spec (hi a) (hi b)),
      (Z.eqb_spec (hi b) (hi a)), (Z.eqb_spec (hi a) (hi b)),
      (Z.ltb_spec (lo b) (lo a)), (Z.ltb_spec (lo a) (lo b)),
      (Z.eqb_spec (lo a) (lo b)); cbn; split; try reflexivity; lia.
  - intros a b Wa Wb.
    pose proof (operator_lt_value a b Wa Wb) as Lab.
    pose proof (operator_lt_value b a Wb Wa) as Lba.
    assert (Eab : operator_eq a b = true <-> to_Z a = to_Z b).
    { rewrite operator_eq_limbs. split.
      - intros [El Eh]. unfold to_Z. congruence.
      - intros E. apply (to_Z_inj a b Wa Wb) in E. subst. auto. }
    unfold operator_ne, operator_le, operator_gt, operator_ge.
    rewrite !negb_true_iff, <- !not_true_iff_false.
    split; [exact Eab | ].
    split; [tauto | ].
    split; [exact Lab | ].
    split; [rewrite Lba; lia | ].
    split; [rewrite Lba; lia | ].
    rewrite Lab; lia.
  - vm_compute. reflexivity.
Qed.

Lemma comparison_semantics_witness :
  (operator_lt (mk_u128 (2 ^ 64 - 1) 0) (mk_u128 0 1) = true <->
   to_Z (mk_u128 (2 ^ 64 - 1) 0) < to_Z (mk_u128 0 1)).
Proof.
  apply (proj1 (proj2 comparison_semantics));
    unfold wf, U64.in_range; vm_compute; repeat split; congruence.
Defined.

(** ** Multiplication *)

(** A shift by exactly 64 moves the low limb up and drops the high one. *)
Lemma operator_shl_64 (p : u128) :
  operator_shl p 64 = Some (mk_u128 0 (lo p)).
Proof. reflexivity. Qed.

Lemma to_Z_shifted_limb (p : u128) :
  wf p -> to_Z (mk_u128 0 (lo p)) = (to_Z p * 2 ^ 64) mod 2 ^ 128.
Proof.
  intros W.
  destruct (operator_shl_assign_spec p 64 W ltac:(lia)) as (r & E & _ & V).
  change (operator_shl_assign p 64) with (operator_shl p 64) in E.
  rewrite operator_shl_64 in E. injection E as <-. exact V.
Qed.

Lemma wf_shifted_limb (p : u128) : wf p -> wf (mk_u128 0 (lo p)).
Proof. intros [Wl _]. apply wf_intro; [apply in_range_0 | assumption]. Qed.

Lemma operator_mul_u64_spec (s : substrate) (v : u128) (w : Z) :
  wf v -> U64.in_range w ->
  exists r : u128,
    operator_mul_u64 s v w = Some r /\
    r = operator_add (mul64 s (lo v) w) (mk_u128 0 (lo (mul64 s (hi v) w))) /\
    wf r /\ to_Z r = (to_Z v * w) mod 2 ^ 128.
Proof.
  intros [Vl Vh] Hw.
  destruct (mul64_spec s (lo v) w Vl Hw) as [Wlo Elo].
  destruct (mul64_spec s (hi v) w Vh Hw) as [Whi Ehi].
  unfold operator_mul_u64. rewrite operator_shl_64. cbn [bind].
  eexists. split; [reflexivity | ]. split; [reflexivity | ].
  destruct (operator_add_assign_spec _ _ Wlo (wf_shifted_limb _ Whi)) as [W E].
  unfold operator_add. split; [exact W | ].
  rewrite E, to_Z_shifted_limb, Elo, Ehi by assumption.
  rewrite Z.add_mod_idemp_r by lia.
  f_equal. unfold to_Z. ring.
Qed.

Lemma operator_mul_spec (s : substrate) (u v : u128) :
  wf u -> wf v ->
  exists r : u128,
    operator_mul s u v = Some r /\
    wf r /\ to_Z r = (to_Z u * to_Z v) mod 2 ^ 128.
Proof.
  intros [Ul Uh] [Vl Vh].
  destruct (mul64_spec s (lo u) (lo v) Ul Vl) as [W0 E0].
  destruct (mul64_spec s (lo u) (hi v) Ul Vh) as [W1 E1].
  destruct (mul64_spec s (hi u) (lo v) Uh Vl) as [W2 E2].
  unfold operator_mul. rewrite !operator_shl_64. cbn [bind].
  eexists. split; [reflexivity | ].
  destruct (operator_add_assign_spec _ _ W0 (wf_shifted_limb _ W1)) as [Wa Ea].
  destruct (operator_add_assign_spec _ _ Wa (wf_shifted_limb _ W2)) as [Wb Eb].
  split; [exact Wb | ].
  rewrite Eb, Ea, !to_Z_shifted_limb, E0, E1, E2 by assumption.
  rewrite Z.add_mod_idemp_r, Z.add_mod_idemp_l by lia.
  rewrite (Z.add_comm (lo u * lo v)), <- Z.add_assoc, Z.add_comm.
  rewrite Z.add_mod_idemp_r by lia.
  unfold to_Z.
  replace ((hi u * 2 ^ 64 + lo u) * (hi v * 2 ^ 64 + lo v))
    with (lo u * lo v + hi u * lo v * 2 ^ 64 + lo u * hi v * 2 ^ 64
          + hi u * hi v * 2 ^ 128)
    by (change (2 ^ 128) with (2 ^ 64 * 2 ^ 64); ring).
  rewrite Z.mod_add by lia. reflexivity.
Qed.

(** C3.  For all values [u] and [v], on every substrate, [u * v] has a
    result: the one 128-bit value congruent to the product of the two
    numeric values modulo [2^128].  It is the sum of the three partial
    products [lo*lo], [(lo*hi) << 64] and [(hi*lo) << 64]; the omitted
    [hi*hi] product is a multiple of [2^128]. *)
Theorem mul_u128_modulo (s : substrate) (u v : u128) :
  wf u -> wf v ->
  exists r : u128,
    operator_mul s u v = Some r /\
    wf r /\
    to_Z r = (to_Z u * to_Z v) mod 2 ^ 128 /\
    (forall r' : u128,
        wf r' ->
        to_Z r' mod 2 ^ 128 = (to_Z u * to_Z v) mod 2 ^ 128 -> r' = r) /\
    to_Z r = (lo u * lo v + lo u * hi v * 2 ^ 64 + hi u * lo v * 2 ^ 64)
             mod 2 ^ 128 /\
    to_Z u * to_Z v
    = lo u * lo v + lo u * hi v * 2 ^ 64 + hi u * lo v * 2 ^ 64
      + hi u * hi v * 2 ^ 128.
Proof.
  intros Wu Wv.
  destruct (operator_mul_spec s u v Wu Wv) as (r & E & W & V).
  assert (Split : to_Z u * to_Z v
                  = lo u * lo v + lo u * hi v * 2 ^ 64 + hi u * lo v * 2 ^ 64
                    + hi u * hi v * 2 ^ 128).
  { unfold to_Z. change (2 ^ 128) with (2 ^ 64 * 2 ^ 64). ring. }
  exists r. split; [exact E | ]. split; [exact W | ]. split; [exact V | ].
  split; [ | split; [ | exact Split]].
  - intros r' W' C. apply to_Z_inj; try assumption.
    rewrite V, <- C. symmetry. apply Z.mod_small, to_Z_range, W'.
  - rewrite V, Split, Z.mod_add by lia. reflexivity.
Qed.

Lemma mul_u128_modulo_witness :
  exists r : u128,
    operator_mul portable_fallback MAX MAX = Some r /\
    wf r /\ to_Z r = (to_Z MAX * to_Z MAX) mod 2 ^ 128.
Proof.
  destruct (mul_u128_modulo portable_fallback MAX MAX) as (r & E & W & V & _).
  - unfold wf, U64.in_range; vm_compute; repeat split; congruence.
  - unfold wf, U64.in_range; vm_compute; repeat split; congruence.
  - exists r. auto.
Defined.

(** C4.  For every value [v] and 64-bit word [w], on every substrate,
    [v * w] and [w * v] have the same result: the product of the numeric
    value and [w] modulo [2^128].  Only the low limb of [mul64(v.hi, w)]
    enters it, so its bits at or above bit 128 are discarded, and the
    result is that of the 128 x 128 path [v * u128(w, 0)]. *)
Theorem mul_u128_by_word_truncates (s : substrate) (v : u128) (w : Z) :
  wf v -> U64.in_range w ->
  exists r : u128,
    operator_mul_u64 s v w = Some r /\
    operator_mul_u64_l s w v = Some r /\
    wf r /\
    to_Z r = (to_Z v * w) mod 2 ^ 128 /\
    r = operator_add (mul64 s (lo v) w) (mk_u128 0 (lo (mul64 s (hi v) w))) /\
    operator_mul s v (mk_u128 w 0) = Some r.
Proof.
  intros Wv Hw.
  destruct (operator_mul_u64_spec s v w Wv Hw) as (r & E & F & W & V).
  assert (Ww : wf (mk_u128 w 0)) by (apply wf_intro; [assumption | apply in_range_0]).
  destruct (operator_mul_spec s v (mk_u128 w 0) Wv Ww) as (r' & E' & W' & V').
  exists r. repeat (split; [assumption | ]).
  rewrite E'. f_equal. apply to_Z_inj; try assumption.
  rewrite V, V'. unfold to_Z at 3; cbn [lo hi]. f_equal.
Qed.

Lemma mul_u128_by_word_truncates_witness :
  exists r : u128,
    operator_mul_u64 portable_fallback (mk_u128 0 (2 ^ 64 - 1)) 2 = Some r /\
    operator_mul portable_fallback (mk_u128 0 (2 ^ 64 - 1)) (mk_u128 2 0) = Some r.
Proof.
  destruct (mul_u128_by_word_truncates portable_fallback (mk_u128 0 (2 ^ 64 - 1)) 2)
    as (r & E & _ & _ & _ & _ & E').
  - unfold wf, U64.in_range; vm_compute; repeat split; congruence.
  - unfold U64.in_range; vm_compute; repeat split; congruence.
  - exists r. auto.
Defined.

Lemma shift_semantics_witness :
  exists r : u128,
    operator_shl (mk_u128 (2 ^ 64 - 1) 5) 100 = Some r /\ wf r /\
    to_Z r = (to_Z (mk_u128 (2 ^ 64 - 1) 5) * 2 ^ 100) mod 2 ^ 128.
Proof.
  apply (shift_semantics (mk_u128 (2 ^ 64 - 1) 5) 100).
  - unfold wf, U64.in_range; vm_compute; repeat split; congruence.
  - lia.
Defined.

(** ** Formatting *)

Lemma string_app_assoc (s1 s2 s3 : string) :
  ((s1 ++ s2) ++ s3 = s1 ++ (s2 ++ s3))%string.
Proof. induction s1 as [ | c s1 IH]; simpl; [reflexivity | rewrite IH; reflexivity]. Qed.


Lemma replicate_length (n : nat) (c : ascii) : String.length (replicate n c) = n.
Proof. induction n as [ | n IH]; simpl; [reflexivity | rewrite IH; reflexivity]. Qed.


Lemma render_digits_acc (fuel : nat) (r : Z) :
  forall (n : Z) (acc : string),
    render_digits fuel r n acc
    = (render_digits fuel r n EmptyString ++ acc)%string.
Proof.
  induction fuel as [ | fuel IH]; intros n acc; simpl; [reflexivity | ].
  destruct (n / r =? 0); [reflexivity | ].
  rewrite (IH (n / r) (String _ acc)), (IH (n / r) (String _ EmptyString)).
  rewrite string_app_assoc. reflexivity.
Qed.












(** C9.  [to_string_hex] does not always return 34 characters.  Its
    stream is constructed with the global locale, and the digits of a
    limb are grouped as that locale says before they are padded.  With
    groups of three digits separated by [","], [MAX] has 6 groups in
    each limb and comes out as 44 characters; a limb of four digits
    keeps its 16 characters but one of them is the separator.  The
    claim, and the comment in [to_string_hex], say exactly 34 characters
    of ["0x"] and hexadecimal digits for every value. *)
Theorem hex_format_breaks_under_grouping :
  to_string_hex (mk_numpunct ","%char [3%nat]) MAX
  = "0xf,fff,fff,fff,fff,ffff,fff,fff,fff,fff,fff"%string /\
  String.length (to_string_hex (mk_numpunct ","%char [3%nat]) MAX) = 44%nat /\
  to_string_hex (mk_numpunct ","%char [3%nat]) MAX <> spec_hex MAX /\
  to_string_hex (mk_numpunct ","%char [3%nat]) (mk_u128 0x1234 0)
  = "0x0000000000000000000000000001,234"%string /\
  to_string_hex classic_locale MAX
  = "0xffffffffffffffffffffffffffffffff"%string.
Proof.
  split; [vm_compute; reflexivity | ].
  split; [vm_compute; reflexivity | ].
  split; [vm_compute; discriminate | ].
  split; vm_compute; reflexivity.
Qed.

(** * Further properties of the header *)

(** ** Values and integers *)

Lemma wf_of_Z (z : Z) : wf (of_Z z).
Proof.
  unfold of_Z. apply wf_intro; unfold U64.in_range; rewrite modulus64_eq;
    change (2 ^ 64) with 18446744073709551616; apply Z.mod_pos_bound; lia.
Qed.

Lemma to_Z_of_Z (z : Z) : to_Z (of_Z z) = z mod 2 ^ 128.
Proof.
  unfold of_Z, to_Z; cbn [lo hi].
  change (2 ^ 128) with (2 ^ 64 * 2 ^ 64).
  rewrite (Z.rem_mul_r z (2 ^ 64) (2 ^ 64)) by lia. ring.
Qed.

(** A well-formed value is determined by its number modulo [2^128]. *)
Lemma canonical (r : u128) (z : Z) :
  wf r -> to_Z r = z mod 2 ^ 128 -> r = of_Z z.
Proof.
  intros W E. apply to_Z_inj; [exact W | apply wf_of_Z | ].
  rewrite to_Z_of_Z. exact E.
Qed.

Lemma of_Z_to_Z (v : u128) : wf v -> of_Z (to_Z v) = v.
Proof.
  intros W. symmetry. apply canonical; [exact W | ].
  symmetry. apply Z.mod_small, to_Z_range, W.
Qed.

Lemma of_Z_congr (y z : Z) : y mod 2 ^ 128 = z mod 2 ^ 128 -> of_Z y = of_Z z.
Proof.
  intros E. apply canonical; [apply wf_of_Z | ]. rewrite to_Z_of_Z. exact E.
Qed.

Lemma operator_add_canonical (a b : u128) :
  wf a -> wf b -> operator_add a b = of_Z (to_Z a + to_Z b).
Proof.
  intros Wa Wb. destruct (operator_add_assign_spec a b Wa Wb) as [W E].
  apply canonical; assumption.
Qed.

Lemma operator_mul_canonical (s : substrate) (u v : u128) :
  wf u -> wf v -> operator_mul s u v = Some (of_Z (to_Z u * to_Z v)).
Proof.
  intros Wu Wv. destruct (operator_mul_spec s u v Wu Wv) as (r & E & W & V).
  rewrite E. f_equal. apply canonical; assumption.
Qed.

Lemma operator_shl_canonical (v : u128) (n : Z) :
  wf v -> 0 <= n -> operator_shl v n = Some (of_Z (to_Z v * 2 ^ n)).
Proof.
  intros W Hn.
  destruct (operator_shl_assign_spec v n W Hn) as (r & E & Wr & V).
  unfold operator_shl. rewrite E. f_equal. apply canonical; assumption.
Qed.

Lemma operator_shr_canonical (v : u128) (n : Z) :
  wf v -> 0 <= n -> operator_shr v n = Some (of_Z (to_Z v / 2 ^ n)).
Proof.
  intros W Hn.
  destruct (operator_shr_assign_spec v n W Hn) as (r & E & Wr & V).
  unfold operator_shr. rewrite E. f_equal. apply canonical; [assumption | ].
  rewrite V. symmetry. apply Z.mod_small.
  pose proof (to_Z_range v W) as R.
  assert (P : 0 < 2 ^ n) by (apply Z.pow_pos_nonneg; lia).
  split; [apply Z.div_pos; lia | ].
  apply Z.le_lt_trans with (to_Z v); [ | lia].
  apply Z.div_le_upper_bound; [lia | nia].
Qed.

Ltac wf_by_compute :=
  unfold wf, U64.in_range; vm_compute; repeat split; congruence.

(** ** add64 *)

(** X1.  [add64 a b] is the exact sum of two 64-bit words: its limbs are
    64-bit words, the high limb is the carry, 0 or 1, and
    [hi * 2^64 + lo = a + b] with nothing lost. *)
Theorem add64_exact (a b : Z) :
  U64.in_range a -> U64.in_range b ->
  wf (add64 a b) /\
  to_Z (add64 a b) = a + b /\
  (hi (add64 a b) = 1 <-> 2 ^ 64 <= a + b) /\
  (hi (add64 a b) = 0 <-> a + b < 2 ^ 64).
Proof.
  intros Ha Hb. unfold add64. cbv zeta.
  replace (U64.add a b) with (U64.add b a)
    by (unfold U64.add; f_equal; lia).
  rewrite carry_test by assumption.
  limbs_to_literals.
  destruct (Z.leb_spec 18446744073709551616 (b + a));
    cbn [lo hi]; repeat split; try intros; try lia;
    Z.div_mod_to_equations; lia.
Qed.

Lemma add64_exact_witness :
  to_Z (add64 (2 ^ 64 - 1) (2 ^ 64 - 1)) = (2 ^ 64 - 1) + (2 ^ 64 - 1).
Proof.
  apply (add64_exact (2 ^ 64 - 1) (2 ^ 64 - 1));
    unfold U64.in_range; vm_compute; split; congruence.
Defined.

(** ** mul64 *)

(** X2.  [mul64] is commutative on every substrate, and so is the
    portable algorithm, although it treats the two cross products
    [a0*b1] and [a1*b0] in different positions of its sums. *)
Theorem mul64_commutative (s : substrate) (a b : Z) :
  U64.in_range a -> U64.in_range b ->
  mul64 s a b = mul64 s b a /\ mul64_portable a b = mul64_portable b a.
Proof.
  intros Ha Hb.
  assert (C : forall t, mul64 t a b = mul64 t b a).
  { intros t.
    destruct (mul64_spec t a b Ha Hb) as [W1 E1].
    destruct (mul64_spec t b a Hb Ha) as [W2 E2].
    apply to_Z_inj; try assumption. rewrite E1, E2. ring. }
  split; [apply C | apply (C portable_fallback)].
Qed.

Lemma mul64_commutative_witness :
  mul64_portable 0xFFFFFFFFFFFFFFFE 0x100000001
  = mul64_portable 0x100000001 0xFFFFFFFFFFFFFFFE.
Proof.
  apply (mul64_commutative portable_fallback 0xFFFFFFFFFFFFFFFE 0x100000001);
    unfold U64.in_range; vm_compute; split; congruence.
Defined.

(** X3.  The high limb of a 64 x 64 product is never [2^64 - 1]: it is at
    most [2^64 - 2], so two further 64-bit words can always be added to
    the product without leaving 128 bits. *)
Theorem mul64_high_limb_bound (s : substrate) (a b c d : Z) :
  U64.in_range a -> U64.in_range b -> U64.in_range c -> U64.in_range d ->
  hi (mul64 s a b) <= 2 ^ 64 - 2 /\
  to_Z (mul64 s a b) + c + d < 2 ^ 128.
Proof.
  intros Ha Hb Hc Hd.
  destruct (mul64_spec s a b Ha Hb) as [[Wl Wh] E].
  assert (R : a * b <= (2 ^ 64 - 1) * (2 ^ 64 - 1)).
  { unfold U64.in_range in Ha, Hb. rewrite modulus64_eq in Ha, Hb.
    change (2 ^ 64) with 18446744073709551616. nia. }
  rewrite E. unfold to_Z in E. limbs_to_literals. lia.
Qed.

Lemma mul64_high_limb_bound_witness :
  hi (mul64 portable_fallback (2 ^ 64 - 1) (2 ^ 64 - 1)) <= 2 ^ 64 - 2.
Proof.
  apply (mul64_high_limb_bound portable_fallback (2 ^ 64 - 1) (2 ^ 64 - 1) 0 0);
    unfold U64.in_range; vm_compute; split; congruence.
Defined.

(** ** Algebra of addition *)

Lemma wf_ZERO : wf ZERO.
Proof. wf_by_compute. Qed.

Lemma wf_ONE : wf ONE.
Proof. wf_by_compute. Qed.

Lemma wf_MAX : wf MAX.
Proof. wf_by_compute. Qed.

Lemma wf_operator_add (a b : u128) : wf a -> wf b -> wf (operator_add a b).
Proof. intros Wa Wb. apply operator_add_assign_spec; assumption. Qed.

(** X4.  Addition is commutative and associative and [ZERO] is its
    identity, although the carry is computed from one operand only
    ([lo < other.lo]). *)
Theorem addition_laws (a b c : u128) :
  wf a -> wf b -> wf c ->
  operator_add a b = operator_add b a /\
  operator_add (operator_add a b) c = operator_add a (operator_add b c) /\
  operator_add a ZERO = a /\
  operator_add ZERO a = a.
Proof.
  intros Wa Wb Wc.
  pose proof (wf_operator_add a b Wa Wb) as Wab.
  pose proof (wf_operator_add b c Wb Wc) as Wbc.
  split; [ | split; [ | split]].
  - rewrite !operator_add_canonical by assumption. f_equal. lia.
  - rewrite (operator_add_canonical (operator_add a b) c) by assumption.
    rewrite (operator_add_canonical a (operator_add b c)) by assumption.
    rewrite (operator_add_canonical a b), (operator_add_canonical b c)
      by assumption.
    rewrite !to_Z_of_Z. apply of_Z_congr.
    rewrite Z.add_mod_idemp_l, Z.add_mod_idemp_r by lia. f_equal. lia.
  - rewrite operator_add_canonical by (assumption || apply wf_ZERO).
    change (to_Z ZERO) with 0. rewrite Z.add_0_r. apply of_Z_to_Z, Wa.
  - rewrite operator_add_canonical by (assumption || apply wf_ZERO).
    change (to_Z ZERO) with 0. rewrite Z.add_0_l. apply of_Z_to_Z, Wa.
Qed.

Lemma addition_laws_witness :
  operator_add (operator_add MAX ONE) MAX = operator_add MAX (operator_add ONE MAX).
Proof.
  apply (addition_laws MAX ONE MAX); wf_by_compute.
Defined.

(** X5.  Unsigned overflow of a 128-bit addition shows in the result the
    way it does for a machine word: [a + b < a] holds exactly when the
    sum of the two numbers does not fit in 128 bits, and then the result
    is the sum less [2^128]. *)
Theorem addition_overflow_test (a b : u128) :
  wf a -> wf b ->
  (operator_lt (operator_add a b) a = true <-> 2 ^ 128 <= to_Z a + to_Z b) /\
  (operator_lt (operator_add a b) b = true <-> 2 ^ 128 <= to_Z a + to_Z b) /\
  (to_Z a + to_Z b < 2 ^ 128 -> to_Z (operator_add a b) = to_Z a + to_Z b) /\
  (2 ^ 128 <= to_Z a + to_Z b ->
   to_Z (operator_add a b) = to_Z a + to_Z b - 2 ^ 128).
Proof.
  intros Wa Wb.
  pose proof (wf_operator_add a b Wa Wb) as Wab.
  destruct (operator_add_assign_spec a b Wa Wb) as [_ E].
  fold (operator_add a b) in E.
  rewrite !operator_lt_value by assumption. rewrite E.
  pose proof (to_Z_range a Wa) as Ra. pose proof (to_Z_range b Wb) as Rb.
  change (2 ^ 128) with 340282366920938463463374607431768211456 in *.
  repeat split; intros; Z.div_mod_to_equations; lia.
Qed.

Lemma addition_overflow_test_witness :
  operator_lt (operator_add MAX ONE) MAX = true <->
  2 ^ 128 <= to_Z MAX + to_Z ONE.
Proof.
  apply (addition_overflow_test MAX ONE); wf_by_compute.
Defined.

(** ** operator+= through references *)

(** X6.  [operator+=] on two different objects leaves in [*this] the sum
    that [operator+] returns and does not touch [other].  Called on one
    object, [x += x], it doubles each limb separately: the carry out of
    the low limb is never added, because [other.lo] is read after [lo]
    has been overwritten.  So [x += x] is [x + x] exactly when the low
    limb is below [2^63]. *)
Theorem add_assign_aliasing (st : store) (this other : nat) :
  wf (st this) ->
  (this <> other ->
   operator_add_assign_at st this other this
   = operator_add (st this) (st other) /\
   operator_add_assign_at st this other other = st other) /\
  (this = other ->
   operator_add_assign_at st this other this
   = mk_u128 ((2 * lo (st this)) mod 2 ^ 64) ((2 * hi (st this)) mod 2 ^ 64) /\
   (operator_add_assign_at st this other this
    = operator_add (st this) (st this) <-> lo (st this) < 2 ^ 63)).
Proof.
  intros W. split.
  - intros Ne. unfold operator_add_assign_at, store_write.
    rewrite Nat.eqb_refl.
    destruct (Nat.eqb_spec other this) as [E | _]; [congruence | ].
    split; reflexivity.
  - intros <-. unfold operator_add_assign_at, store_write.
    rewrite !Nat.eqb_refl. cbn [lo hi].
    assert (E : mk_u128 (U64.add (lo (st this)) (lo (st this)))
                  (U64.add (hi (st this))
                     (U64.add (hi (st this))
                        (U64.of_bool
                           (U64.ltb (U64.add (lo (st this)) (lo (st this)))
                              (U64.add (lo (st this)) (lo (st this)))))))
                = mk_u128 ((2 * lo (st this)) mod 2 ^ 64)
                    ((2 * hi (st this)) mod 2 ^ 64)).
    { unfold U64.ltb. rewrite Z.ltb_irrefl.
      unfold U64.add, U64.wrap, U64.of_bool. rewrite modulus64_eq.
      change (2 ^ 64) with 18446744073709551616.
      rewrite Z.add_0_r, Z.add_mod_idemp_r by lia.
      f_equal; f_equal; lia. }
    rewrite E. split; [reflexivity | ].
    unfold operator_add, operator_add_assign.
    destruct W as [Wl Wh]. rewrite carry_test by assumption.
    destruct (st this) as [l h]. limbs_to_literals.
    change (2 ^ 63) with 9223372036854775808.
    destruct (Z.leb_spec 18446744073709551616 (l + l)); split.
    + intros Eq. apply (f_equal hi) in Eq. cbn [hi] in Eq. exfalso.
      clear E. Z.div_mod_to_equations. lia.
    + lia.
    + lia.
    + intros _. f_equal; f_equal; Z.div_mod_to_equations; lia.
Qed.

Lemma add_assign_aliasing_witness :
  operator_add_assign_at (fun _ => mk_u128 (2 ^ 63) 0) 0 0 0%nat
  = mk_u128 0 0 /\
  operator_add (mk_u128 (2 ^ 63) 0) (mk_u128 (2 ^ 63) 0) = mk_u128 0 1.
Proof.
  split.
  - apply (proj2 (add_assign_aliasing (fun _ => mk_u128 (2 ^ 63) 0) 0 0
                    ltac:(wf_by_compute)) eq_refl).
  - vm_compute. reflexivity.
Defined.

(** ** Bitwise operators *)

Lemma in_range_testbit_high (x i : Z) :
  U64.in_range x -> 64 <= i -> Z.testbit x i = false.
Proof.
  intros Hx Hi. rewrite <- (Z.mod_small x (2 ^ 64)) by exact Hx.
  apply Z.mod_pow2_bits_high. lia.
Qed.

Lemma in_range_of_bits (x : Z) :
  (forall i, 0 <= i -> Z.testbit (x mod 2 ^ 64) i = Z.testbit x i) ->
  U64.in_range x.
Proof.
  intros H. apply Z.bits_inj' in H. rewrite <- H.
  unfold U64.in_range, U64.modulus. apply Z.mod_pos_bound. lia.
Qed.

Ltac limb_bits H1 H2 :=
  apply in_range_of_bits; intros i Hi;
  destruct (Z.ltb_spec i 64) as [Lo | Hg];
  [ apply Z.mod_pow2_bits_low; lia
  | rewrite Z.mod_pow2_bits_high by lia;
    rewrite ?Z.land_spec, ?Z.lor_spec, ?Z.lxor_spec;
    rewrite (in_range_testbit_high _ i H1 Hg),
            (in_range_testbit_high _ i H2 Hg); reflexivity ].

Lemma land_in_range (x y : Z) :
  U64.in_range x -> U64.in_range y -> U64.in_range (Z.land x y).
Proof. intros Hx Hy. limb_bits Hx Hy. Qed.

Lemma lor_in_range (x y : Z) :
  U64.in_range x -> U64.in_range y -> U64.in_range (Z.lor x y).
Proof. intros Hx Hy. limb_bits Hx Hy. Qed.

Lemma lxor_in_range (x y : Z) :
  U64.in_range x -> U64.in_range y -> U64.in_range (Z.lxor x y).
Proof. intros Hx Hy. limb_bits Hx Hy. Qed.

(** Bit [i] of a value is bit [i] of its low limb below 64 and bit
    [i - 64] of its high limb from 64 on. *)
Lemma testbit_to_Z (v : u128) (i : Z) :
  wf v -> 0 <= i ->
  Z.testbit (to_Z v) i
  = if i <? 64 then Z.testbit (lo v) i else Z.testbit (hi v) (i - 64).
Proof.
  intros [Wl Wh] Hi. unfold to_Z.
  rewrite Z.add_comm, <- lor_disjoint_add by (exact Wl || lia).
  rewrite Z.lor_spec, <- Z.shiftl_mul_pow2 by lia.
  destruct (Z.ltb_spec i 64) as [Lo | Hg].
  - rewrite Z.shiftl_spec_low by lia. apply orb_false_r.
  - rewrite (in_range_testbit_high _ i Wl Hg), Z.shiftl_spec by lia.
    reflexivity.
Qed.

Lemma testbit_lnot64 (x i : Z) :
  0 <= i ->
  Z.testbit (U64.lnot x) i = (i <? 64) && negb (Z.testbit x i).
Proof.
  intros Hi. unfold U64.lnot, U64.wrap, U64.modulus.
  destruct (Z.ltb_spec i 64) as [Lo | Hg].
  - rewrite Z.mod_pow2_bits_low, Z.lnot_spec by lia. reflexivity.
  - rewrite Z.mod_pow2_bits_high by lia. reflexivity.
Qed.

Lemma lnot64_value (x : Z) :
  U64.in_range x -> U64.lnot x = 2 ^ 64 - 1 - x.
Proof.
  unfold U64.in_range, U64.lnot, U64.wrap. rewrite modulus64_eq.
  change (2 ^ 64) with 18446744073709551616. intros Hx.
  pose proof (Z.add_lnot_diag x) as D.
  replace (Z.lnot x) with (- x - 1) by lia.
  Z.div_mod_to_equations. lia.
Qed.

Lemma wf_operator_not (a : u128) : wf a -> wf (operator_not a).
Proof.
  intros [Wl Wh]. unfold operator_not.
  apply wf_intro; rewrite lnot64_value by assumption;
    limbs_to_literals; lia.
Qed.

Lemma to_Z_operator_not (a : u128) :
  wf a -> to_Z (operator_not a) = 2 ^ 128 - 1 - to_Z a.
Proof.
  intros [Wl Wh]. unfold operator_not, to_Z; cbn [lo hi].
  rewrite !lnot64_value by assumption.
  change (2 ^ 128) with (2 ^ 64 * 2 ^ 64). ring.
Qed.

Lemma wf_operator_and (a b : u128) : wf a -> wf b -> wf (operator_and a b).
Proof. intros [Al Ah] [Bl Bh]. apply wf_intro; apply land_in_range; assumption. Qed.

Lemma wf_operator_or (a b : u128) : wf a -> wf b -> wf (operator_or a b).
Proof. intros [Al Ah] [Bl Bh]. apply wf_intro; apply lor_in_range; assumption. Qed.

Lemma wf_operator_xor (a b : u128) : wf a -> wf b -> wf (operator_xor a b).
Proof. intros [Al Ah] [Bl Bh]. apply wf_intro; apply lxor_in_range; assumption. Qed.

Lemma to_Z_operator_and (a b : u128) :
  wf a -> wf b -> to_Z (operator_and a b) = Z.land (to_Z a) (to_Z b).
Proof.
  intros Wa Wb. pose proof (wf_operator_and a b Wa Wb) as W.
  apply Z.bits_inj'. intros i Hi.
  rewrite Z.land_spec, !testbit_to_Z by assumption.
  destruct (i <? 64); cbn [operator_and lo hi]; unfold U64.and;
    apply Z.land_spec.
Qed.

Lemma to_Z_operator_or (a b : u128) :
  wf a -> wf b -> to_Z (operator_or a b) = Z.lor (to_Z a) (to_Z b).
Proof.
  intros Wa Wb. pose proof (wf_operator_or a b Wa Wb) as W.
  apply Z.bits_inj'. intros i Hi.
  rewrite Z.lor_spec, !testbit_to_Z by assumption.
  destruct (i <? 64); cbn [operator_or lo hi]; unfold U64.or;
    apply Z.lor_spec.
Qed.

Lemma to_Z_operator_xor (a b : u128) :
  wf a -> wf b -> to_Z (operator_xor a b) = Z.lxor (to_Z a) (to_Z b).
Proof.
  intros Wa Wb. pose proof (wf_operator_xor a b Wa Wb) as W.
  apply Z.bits_inj'. intros i Hi.
  rewrite Z.lxor_spec, !testbit_to_Z by assumption.
  destruct (i <? 64); cbn [operator_xor lo hi]; unfold U64.lxor;
    apply Z.lxor_spec.
Qed.

(** X7.  The limb-wise [&], [|] and [^] are the bitwise operations on
    the 128-bit number as a whole, they keep both limbs 64-bit words,
    and the compound forms [&=], [|=], [^=] leave the same value. *)
Theorem bitwise_on_value (a b : u128) :
  wf a -> wf b ->
  (wf (operator_and a b) /\
   to_Z (operator_and a b) = Z.land (to_Z a) (to_Z b)) /\
  (wf (operator_or a b) /\
   to_Z (operator_or a b) = Z.lor (to_Z a) (to_Z b)) /\
  (wf (operator_xor a b) /\
   to_Z (operator_xor a b) = Z.lxor (to_Z a) (to_Z b)) /\
  operator_and_assign a b = operator_and a b /\
  operator_or_assign a b = operator_or a b /\
  operator_xor_assign a b = operator_xor a b.
Proof.
  intros Wa Wb.
  split; [split; [apply wf_operator_and | apply to_Z_operator_and]; assumption | ].
  split; [split; [apply wf_operator_or | apply to_Z_operator_or]; assumption | ].
  split; [split; [apply wf_operator_xor | apply to_Z_operator_xor]; assumption | ].
  repeat split.
Qed.

Lemma bitwise_on_value_witness :
  to_Z (operator_xor MAX ONE) = Z.lxor (to_Z MAX) (to_Z ONE).
Proof.
  apply (bitwise_on_value MAX ONE); wf_by_compute.
Defined.

(** X8.  [~a] is the ones' complement [2^128 - 1 - a], so [a + ~a] is
    [MAX] and [~a + 1] is the additive inverse of [a]:
    [a + (~a + ONE) = ZERO]. *)
Theorem complement_negates (a : u128) :
  wf a ->
  wf (operator_not a) /\
  to_Z (operator_not a) = 2 ^ 128 - 1 - to_Z a /\
  operator_add a (operator_not a) = MAX /\
  operator_add a (operator_add (operator_not a) ONE) = ZERO.
Proof.
  intros W. pose proof (wf_operator_not a W) as Wn.
  pose proof (to_Z_operator_not a W) as En.
  pose proof (to_Z_range a W) as R.
  split; [exact Wn | split; [exact En | split]].
  - rewrite operator_add_canonical by assumption. rewrite En.
    replace (to_Z a + (2 ^ 128 - 1 - to_Z a)) with (2 ^ 128 - 1) by lia.
    reflexivity.
  - pose proof (wf_operator_add _ _ Wn wf_ONE) as W1.
    rewrite (operator_add_canonical a) by assumption.
    rewrite (operator_add_canonical (operator_not a)) by (assumption || apply wf_ONE).
    rewrite to_Z_of_Z, En. change (to_Z ONE) with 1.
    symmetry. apply canonical; [apply wf_ZERO | ].
    rewrite Z.add_mod_idemp_r by lia.
    replace (to_Z a + (2 ^ 128 - 1 - to_Z a + 1)) with (1 * 2 ^ 128) by lia.
    rewrite Z.mod_mul by lia. reflexivity.
Qed.

Lemma complement_negates_witness :
  operator_add (mk_u128 5 7) (operator_add (operator_not (mk_u128 5 7)) ONE) = ZERO.
Proof.
  apply (complement_negates (mk_u128 5 7)). wf_by_compute.
Defined.

(** X9.  The bitwise operators obey De Morgan's laws; complement is an
    involution and xor-ing twice with the same value gives the value
    back; a value and its complement have no common bit and together
    cover all 128. *)
Theorem bitwise_laws (a b : u128) :
  wf a -> wf b ->
  operator_not (operator_and a b)
  = operator_or (operator_not a) (operator_not b) /\
  operator_not (operator_or a b)
  = operator_and (operator_not a) (operator_not b) /\
  operator_not (operator_not a) = a /\
  operator_xor (operator_xor a b) b = a /\
  operator_and a (operator_not a) = ZERO /\
  operator_or a (operator_not a) = MAX.
Proof.
  intros Wa Wb. pose proof Wa as [Al Ah]. pose proof Wb as [Bl Bh].
  assert (DM1 : forall x y,
             U64.lnot (Z.land x y) = Z.lor (U64.lnot x) (U64.lnot y)).
  { intros x y. apply Z.bits_inj'. intros i Hi.
    rewrite Z.lor_spec, !testbit_lnot64, Z.land_spec by assumption.
    destruct (i <? 64), (Z.testbit x i), (Z.testbit y i); reflexivity. }
  assert (DM2 : forall x y,
             U64.lnot (Z.lor x y) = Z.land (U64.lnot x) (U64.lnot y)).
  { intros x y. apply Z.bits_inj'. intros i Hi.
    rewrite Z.land_spec, !testbit_lnot64, Z.lor_spec by assumption.
    destruct (i <? 64), (Z.testbit x i), (Z.testbit y i); reflexivity. }
  assert (Inv : forall x, U64.in_range x -> U64.lnot (U64.lnot x) = x).
  { intros x Hx. rewrite (lnot64_value x Hx). rewrite lnot64_value.
    - lia.
    - unfold U64.in_range in *. rewrite modulus64_eq in *.
      change (2 ^ 64) with 18446744073709551616. lia. }
  assert (Xor : forall x y, Z.lxor (Z.lxor x y) y = x).
  { intros x y. rewrite Z.lxor_assoc, Z.lxor_nilpotent. apply Z.lxor_0_r. }
  assert (Dis : forall x, Z.land x (U64.lnot x) = 0).
  { intros x. apply Z.bits_inj'. intros i Hi.
    rewrite Z.land_spec, testbit_lnot64, Z.bits_0 by assumption.
    destruct (i <? 64), (Z.testbit x i); reflexivity. }
  assert (Cov : forall x, U64.in_range x -> Z.lor x (U64.lnot x) = U64.max).
  { intros x Hx. apply Z.bits_inj'. intros i Hi.
    rewrite Z.lor_spec, testbit_lnot64 by assumption.
    change U64.max with (Z.ones 64).
    destruct (Z.ltb_spec i 64) as [Lo | Hg].
    - rewrite Z.ones_spec_low by lia. destruct (Z.testbit x i); reflexivity.
    - rewrite Z.ones_spec_high by lia.
      rewrite (in_range_testbit_high x i Hx Hg). reflexivity. }
  unfold operator_not, operator_and, operator_or, operator_xor,
    U64.and, U64.or, U64.lxor; cbn [lo hi].
  rewrite !DM1, !DM2, !Xor, !Dis, !Inv, !Cov by assumption.
  destruct a. repeat split.
Qed.

Lemma bitwise_laws_witness :
  operator_not (operator_and MAX ONE)
  = operator_or (operator_not MAX) (operator_not ONE).
Proof.
  apply (bitwise_laws MAX ONE); wf_by_compute.
Defined.

(** X10.  The adder identity: the bits set in either operand plus the
    bits set in both add up to the sum, [(a | b) + (a & b) = a + b]. *)
Theorem or_plus_and_is_sum (a b : u128) :
  wf a -> wf b ->
  operator_add (operator_or a b) (operator_and a b) = operator_add a b.
Proof.
  intros Wa Wb.
  rewrite !operator_add_canonical
    by (assumption || apply wf_operator_or || apply wf_operator_and; assumption).
  rewrite to_Z_operator_and, to_Z_operator_or by assumption.
  rewrite Zbitwise.Z.add_lor_land. reflexivity.
Qed.

Lemma or_plus_and_is_sum_witness :
  operator_add (operator_or MAX ONE) (operator_and MAX ONE)
  = operator_add MAX ONE.
Proof.
  apply (or_plus_and_is_sum MAX ONE); wf_by_compute.
Defined.

(** ** How shifts compose *)

Lemma to_Z_div_small (v : u128) (n : Z) :
  wf v -> 0 <= n -> (to_Z v / 2 ^ n) mod 2 ^ 128 = to_Z v / 2 ^ n.
Proof.
  intros W Hn. pose proof (to_Z_range v W) as R.
  assert (P : 0 < 2 ^ n) by (apply Z.pow_pos_nonneg; lia).
  apply Z.mod_small. split; [apply Z.div_pos; lia | ].
  apply Z.le_lt_trans with (to_Z v); [ | lia].
  apply Z.div_le_upper_bound; [lia | nia].
Qed.

Lemma shifts_compose_counts (v : u128) (a b : Z) :
  wf v -> 0 <= a -> 0 <= b ->
  (t <- operator_shl v a ;; operator_shl t b) = operator_shl v (a + b) /\
  (t <- operator_shr v a ;; operator_shr t b) = operator_shr v (a + b).
Proof.
  intros W Ha Hb. split.
  - rewrite (operator_shl_canonical v a), (operator_shl_canonical v (a + b))
      by (assumption || lia).
    cbn [bind]. rewrite operator_shl_canonical by (apply wf_of_Z || lia).
    f_equal. apply of_Z_congr. rewrite to_Z_of_Z.
    rewrite Z.mul_mod_idemp_l by lia. f_equal.
    rewrite Z.pow_add_r by assumption. ring.
  - rewrite (operator_shr_canonical v a), (operator_shr_canonical v (a + b))
      by (assumption || lia).
    cbn [bind]. rewrite operator_shr_canonical by (apply wf_of_Z || lia).
    f_equal. f_equal. rewrite to_Z_of_Z, to_Z_div_small by assumption.
    pose proof (pow2_pos a Ha) as Pa. pose proof (pow2_pos b Hb) as Pb.
    rewrite Z.pow_add_r, Z.div_div by lia.
    reflexivity.
Qed.

Lemma shift_count_saturated (v : u128) (n : Z) :
  128 <= n ->
  operator_shl v n = Some ZERO /\ operator_shr v n = Some ZERO.
Proof.
  intros Hn. unfold operator_shl, operator_shr, operator_shl_assign,
    operator_shr_assign.
  destruct (Z.eqb_spec n 0) as [-> | N0]; [lia | ].
  destruct (Z.leb_spec 128 n) as [Big | Small]; [ | lia].
  split; reflexivity.
Qed.

(** X11.  Shifts compose as long as the sum of the two [unsigned]
    counts does not wrap: for [a + b < 2^32], [(v << a) << b] is
    [v << (a + b)] and [(v >> a) >> b] is [v >> (a + b)], also when a
    count or the sum reaches 128.  When the sum wraps, shifting twice
    gives [ZERO]; the single shift by the wrapped sum need not: for
    [a = 2^32 - 1] and [b = 1] the wrapped sum is 0 and the single shift
    returns [v]. *)
Theorem shifts_compose (v : u128) (a b : Z) :
  wf v -> U32.in_range a -> U32.in_range b ->
  (a + b < 2 ^ 32 ->
   (t <- operator_shl v a ;; operator_shl t b)
   = operator_shl v (U32.add a b) /\
   (t <- operator_shr v a ;; operator_shr t b)
   = operator_shr v (U32.add a b)) /\
  (2 ^ 32 <= a + b ->
   (t <- operator_shl v a ;; operator_shl t b) = Some ZERO /\
   (t <- operator_shr v a ;; operator_shr t b) = Some ZERO) /\
  operator_shl v (U32.add (2 ^ 32 - 1) 1) = Some v /\
  operator_shr v (U32.add (2 ^ 32 - 1) 1) = Some v.
Proof.
  unfold U32.in_range, U32.modulus. intros W Ha Hb.
  destruct (shifts_compose_counts v a b W ltac:(lia) ltac:(lia)) as [L R].
  split; [ | split; [ | split; reflexivity]].
  - intros Small.
    replace (U32.add a b) with (a + b); [split; assumption | ].
    unfold U32.add, U32.wrap, U32.modulus. symmetry. apply Z.mod_small. lia.
  - intros Wraps. rewrite L, R. apply shift_count_saturated.
    change (2 ^ 32) with 4294967296 in Wraps. lia.
Qed.

Lemma shifts_compose_witness :
  (t <- operator_shl MAX 70 ;; operator_shl t 60)
  = operator_shl MAX (U32.add 70 60) /\
  (t <- operator_shl ONE (2 ^ 32 - 1) ;; operator_shl t 1) = Some ZERO.
Proof.
  assert (R70 : U32.in_range 70) by (vm_compute; split; congruence).
  assert (R60 : U32.in_range 60) by (vm_compute; split; congruence).
  assert (Rmax : U32.in_range (2 ^ 32 - 1)) by (vm_compute; split; congruence).
  assert (R1 : U32.in_range 1) by (vm_compute; split; congruence).
  split.
  - apply (proj1 (shifts_compose MAX 70 60 ltac:(wf_by_compute) R70 R60)).
    vm_compute. reflexivity.
  - apply (proj1 (proj2 (shifts_compose ONE (2 ^ 32 - 1) 1
                           ltac:(wf_by_compute) Rmax R1))).
    vm_compute. congruence.
Defined.

(** X12.  Shifting right and back left clears the low [n] bits and
    nothing else; shifting left and back right keeps the low [128 - n]
    bits, so it returns the value when nothing was shifted out. *)
Theorem shift_round_trip (v : u128) (n : Z) :
  wf v -> 0 <= n <= 128 ->
  (t <- operator_shr v n ;; operator_shl t n)
  = Some (of_Z (to_Z v - to_Z v mod 2 ^ n)) /\
  (t <- operator_shl v n ;; operator_shr t n)
  = Some (of_Z (to_Z v mod 2 ^ (128 - n))) /\
  (to_Z v < 2 ^ (128 - n) ->
   (t <- operator_shl v n ;; operator_shr t n) = Some v).
Proof.
  intros W Hn. pose proof (to_Z_range v W) as R.
  assert (P : 0 < 2 ^ n) by (apply Z.pow_pos_nonneg; lia).
  assert (Q : 0 < 2 ^ (128 - n)) by (apply Z.pow_pos_nonneg; lia).
  assert (S : 2 ^ (128 - n) * 2 ^ n = 2 ^ 128).
  { rewrite <- Z.pow_add_r by lia. f_equal. lia. }
  assert (Back : (t <- operator_shl v n ;; operator_shr t n)
                 = Some (of_Z (to_Z v mod 2 ^ (128 - n)))).
  { rewrite operator_shl_canonical by (assumption || lia). cbn [bind].
    rewrite operator_shr_canonical by (apply wf_of_Z || lia).
    f_equal. f_equal. rewrite to_Z_of_Z, <- S.
    rewrite Z.mul_mod_distr_r by lia.
    apply Z.div_mul. lia. }
  split; [ | split; [exact Back | ]].
  - rewrite operator_shr_canonical by (assumption || lia). cbn [bind].
    rewrite operator_shl_canonical by (apply wf_of_Z || lia).
    f_equal. f_equal. rewrite to_Z_of_Z, to_Z_div_small by (assumption || lia).
    pose proof (Z.div_mod (to_Z v) (2 ^ n) ltac:(lia)) as D. lia.
  - intros Small. rewrite Back, Z.mod_small by lia.
    f_equal. apply of_Z_to_Z, W.
Qed.

Lemma shift_round_trip_witness :
  (t <- operator_shl (mk_u128 (2 ^ 64 - 1) 1) 63 ;; operator_shr t 63)
  = Some (mk_u128 (2 ^ 64 - 1) 1).
Proof.
  apply (shift_round_trip (mk_u128 (2 ^ 64 - 1) 1) 63);
    [wf_by_compute | lia | vm_compute; reflexivity].
Defined.

(** X13.  A left shift is a multiplication by a power of two, on every
    substrate: [v << n] is [v * (ONE << n)], and [v << 1] is [v + v]. *)
Theorem shl_is_multiplication (s : substrate) (v : u128) (n : Z) :
  wf v -> 0 <= n ->
  (p <- operator_shl ONE n ;; operator_mul s v p) = operator_shl v n /\
  operator_shl v 1 = Some (operator_add v v).
Proof.
  intros W Hn. split.
  - rewrite (operator_shl_canonical ONE n wf_ONE Hn). cbn [bind].
    rewrite operator_mul_canonical by (assumption || apply wf_of_Z).
    rewrite operator_shl_canonical by assumption.
    f_equal. apply of_Z_congr. rewrite to_Z_of_Z.
    change (to_Z ONE) with 1. rewrite Z.mul_1_l.
    apply Z.mul_mod_idemp_r. lia.
  - rewrite operator_shl_canonical, operator_add_canonical by (assumption || lia).
    f_equal. f_equal. change (2 ^ 1) with 2. lia.
Qed.

Lemma shl_is_multiplication_witness :
  (p <- operator_shl ONE 100 ;; operator_mul portable_fallback MAX p)
  = operator_shl MAX 100.
Proof.
  apply (shl_is_multiplication portable_fallback MAX 100); [wf_by_compute | lia].
Defined.

(** ** Algebra of multiplication *)

Lemma mul_then (s : substrate) (u v : u128) (k : u128 -> option u128) :
  wf u -> wf v ->
  (r <- operator_mul s u v ;; k r) = k (of_Z (to_Z u * to_Z v)).
Proof.
  intros Wu Wv. rewrite operator_mul_canonical by assumption. reflexivity.
Qed.

(** X14.  Multiplication of values is commutative and associative, [ONE]
    is its identity and [ZERO] annihilates, on every substrate; the
    compound form [u *= v] leaves the same value. *)
Theorem multiplication_laws (s : substrate) (u v w : u128) :
  wf u -> wf v -> wf w ->
  operator_mul s u v = operator_mul s v u /\
  (r <- operator_mul s u v ;; operator_mul s r w)
  = (r <- operator_mul s v w ;; operator_mul s u r) /\
  operator_mul s u ONE = Some u /\
  operator_mul s ONE u = Some u /\
  operator_mul s u ZERO = Some ZERO /\
  operator_mul_assign s u v = operator_mul s v u.
Proof.
  intros Wu Wv Ww.
  assert (C : operator_mul s u v = operator_mul s v u).
  { rewrite !operator_mul_canonical by assumption. f_equal. f_equal. ring. }
  split; [exact C | ]. split; [ | split; [ | split; [ | split]]].
  - rewrite !mul_then by assumption.
    rewrite !operator_mul_canonical by (assumption || apply wf_of_Z).
    f_equal. apply of_Z_congr. rewrite !to_Z_of_Z.
    rewrite Z.mul_mod_idemp_l, Z.mul_mod_idemp_r by lia. f_equal. ring.
  - rewrite operator_mul_canonical by (assumption || apply wf_ONE).
    change (to_Z ONE) with 1. rewrite Z.mul_1_r. f_equal. apply of_Z_to_Z, Wu.
  - rewrite operator_mul_canonical by (assumption || apply wf_ONE).
    change (to_Z ONE) with 1. rewrite Z.mul_1_l. f_equal. apply of_Z_to_Z, Wu.
  - rewrite operator_mul_canonical by (assumption || apply wf_ZERO).
    change (to_Z ZERO) with 0. rewrite Z.mul_0_r. reflexivity.
  - exact C.
Qed.

Lemma multiplication_laws_witness :
  operator_mul portable_fallback MAX (mk_u128 3 5)
  = operator_mul portable_fallback (mk_u128 3 5) MAX.
Proof.
  apply (multiplication_laws portable_fallback MAX (mk_u128 3 5) ONE);
    wf_by_compute.
Defined.

(** X15.  Multiplication distributes over addition, wrap-around
    included: [u * (v + w) = u * v + u * w]. *)
Theorem multiplication_distributes (s : substrate) (u v w : u128) :
  wf u -> wf v -> wf w ->
  operator_mul s u (operator_add v w)
  = (p <- operator_mul s u v ;;
     q <- operator_mul s u w ;;
     Some (operator_add p q)).
Proof.
  intros Wu Wv Ww.
  rewrite !mul_then by assumption.
  rewrite operator_mul_canonical by (assumption || apply wf_operator_add; assumption).
  rewrite !operator_add_canonical by (assumption || apply wf_of_Z).
  f_equal. apply of_Z_congr. rewrite !to_Z_of_Z.
  rewrite Z.mul_mod_idemp_r by lia.
  rewrite <- Z.add_mod by lia. f_equal. ring.
Qed.

Lemma multiplication_distributes_witness :
  operator_mul native_int128 MAX (operator_add MAX ONE)
  = (p <- operator_mul native_int128 MAX MAX ;;
     q <- operator_mul native_int128 MAX ONE ;;
     Some (operator_add p q)).
Proof.
  apply (multiplication_distributes native_int128 MAX MAX ONE); wf_by_compute.
Defined.

(** X16.  Multiplying two values that are widened 64-bit words loses
    nothing: the result is the full 128-bit product [mul64] returns,
    through the 128 x 128 path and through the 128 x 64 path. *)
Theorem widened_words_multiply_exactly (s : substrate) (a b : Z) :
  U64.in_range a -> U64.in_range b ->
  operator_mul s (u128_of_u64 a) (u128_of_u64 b) = Some (mul64 s a b) /\
  operator_mul_u64 s (u128_of_u64 a) b = Some (mul64 s a b) /\
  to_Z (mul64 s a b) = a * b.
Proof.
  intros Ha Hb. destruct (mul64_spec s a b Ha Hb) as [W E].
  assert (Wa : wf (u128_of_u64 a)) by (apply wf_intro; [assumption | apply in_range_0]).
  assert (Wb : wf (u128_of_u64 b)) by (apply wf_intro; [assumption | apply in_range_0]).
  assert (Ea : to_Z (u128_of_u64 a) = a) by (unfold to_Z, u128_of_u64; cbn [lo hi]; lia).
  assert (Eb : to_Z (u128_of_u64 b) = b) by (unfold to_Z, u128_of_u64; cbn [lo hi]; lia).
  pose proof (product_range a b Ha Hb) as R.
  split; [ | split; [ | exact E]].
  - rewrite operator_mul_canonical, Ea, Eb by assumption.
    f_equal. symmetry. apply canonical; [exact W | ].
    rewrite E. symmetry. apply Z.mod_small.
    change (2 ^ 128) with (18446744073709551616 * 18446744073709551616). exact R.
  - destruct (operator_mul_u64_spec s (u128_of_u64 a) b Wa Hb)
      as (r & Er & _ & Wr & Vr).
    rewrite Er. f_equal. apply to_Z_inj; try assumption.
    rewrite Vr, Ea, E. apply Z.mod_small.
    change (2 ^ 128) with (18446744073709551616 * 18446744073709551616). exact R.
Qed.

Lemma widened_words_multiply_exactly_witness :
  operator_mul portable_fallback (u128_of_u64 (2 ^ 64 - 1)) (u128_of_u64 (2 ^ 64 - 1))
  = Some (mul64 portable_fallback (2 ^ 64 - 1) (2 ^ 64 - 1)).
Proof.
  apply (widened_words_multiply_exactly portable_fallback (2 ^ 64 - 1) (2 ^ 64 - 1));
    unfold U64.in_range; vm_compute; split; congruence.
Defined.

(** ** The order *)

(** X17.  [operator<] is a strict total order on limb pairs: it is
    irreflexive and transitive, and of [a < b], [a == b], [a > b]
    exactly one holds, which is what sorting and ordered containers
    need.  No assumption on the limbs is used. *)
Theorem less_than_strict_total_order (a b c : u128) :
  operator_lt a a = false /\
  (operator_lt a b = true -> operator_lt b c = true ->
   operator_lt a c = true) /\
  (operator_lt a b = true /\ operator_eq a b = false /\
   operator_gt a b = false
   \/ operator_lt a b = false /\ operator_eq a b = true /\
      operator_gt a b = false
   \/ operator_lt a b = false /\ operator_eq a b = false /\
      operator_gt a b = true).
Proof.
  split; [ | split].
  - apply not_true_iff_false. rewrite operator_lt_lex. lia.
  - rewrite !operator_lt_lex. lia.
  - unfold operator_gt.
    destruct (operator_lt a b) eqn:Lab, (operator_eq a b) eqn:Eab,
      (operator_lt b a) eqn:Lba; auto; exfalso;
      try apply operator_lt_lex in Lab; try apply operator_lt_lex in Lba;
      try apply operator_eq_limbs in Eab;
      try (apply not_true_iff_false in Lab; rewrite operator_lt_lex in Lab);
      try (apply not_true_iff_false in Lba; rewrite operator_lt_lex in Lba);
      try (apply not_true_iff_false in Eab; rewrite operator_eq_limbs in Eab);
      lia.
Qed.

Lemma less_than_strict_total_order_witness :
  operator_lt (mk_u128 7 1) (mk_u128 3 2) = true.
Proof.
  apply (proj1 (proj2 (less_than_strict_total_order
                         (mk_u128 7 1) (mk_u128 0 2) (mk_u128 3 2))));
    vm_compute; reflexivity.
Defined.

(** X18.  [ZERO] is the least and [MAX] the greatest value, and
    [v + ONE] is above [v] exactly when [v] is not [MAX], where it wraps
    to [ZERO]. *)
Theorem bounds_and_successor (v : u128) :
  wf v ->
  operator_le ZERO v = true /\
  operator_le v MAX = true /\
  (operator_lt v (operator_add v ONE) = true <-> v <> MAX) /\
  (v = MAX -> operator_add v ONE = ZERO).
Proof.
  intros W. pose proof (to_Z_range v W) as R.
  pose proof (wf_operator_add v ONE W wf_ONE) as W1.
  destruct (operator_add_assign_spec v ONE W wf_ONE) as [_ E].
  fold (operator_add v ONE) in E. change (to_Z ONE) with 1 in E.
  assert (M : to_Z MAX = 2 ^ 128 - 1) by reflexivity.
  assert (Neq : v <> MAX <-> to_Z v <> 2 ^ 128 - 1).
  { split; intros H C; apply H.
    - apply to_Z_inj; [exact W | apply wf_MAX | ]. rewrite M. exact C.
    - subst. exact M. }
  unfold operator_le. rewrite !negb_true_iff, <- !not_true_iff_false.
  rewrite !operator_lt_value by (assumption || apply wf_ZERO || apply wf_MAX).
  rewrite M, Neq, E. change (to_Z ZERO) with 0.
  change (2 ^ 128) with 340282366920938463463374607431768211456 in *.
  split; [lia | split; [lia | split]].
  - split; intros H; Z.div_mod_to_equations; lia.
  - intros ->. reflexivity.
Qed.

Lemma bounds_and_successor_witness :
  operator_le (mk_u128 9 9) MAX = true.
Proof.
  apply (proj1 (proj2 (bounds_and_successor (mk_u128 9 9)
                         ltac:(wf_by_compute)))).
Defined.

(** ** The decimal form reads back *)

Lemma string_app_nil_r (s : string) : (s ++ EmptyString)%string = s.
Proof. induction s as [ | c s IH]; simpl; [reflexivity | rewrite IH; reflexivity]. Qed.

Lemma dec_digit_char (d : Z) :
  0 <= d < 10 ->
  dec_digit_value (digit_char d) = Some d /\
  Ascii.eqb (digit_char d) "_"%char = false.
Proof.
  intros H.
  assert (C : d = 0 \/ d = 1 \/ d = 2 \/ d = 3 \/ d = 4 \/ d = 5 \/ d = 6 \/
              d = 7 \/ d = 8 \/ d = 9) by lia.
  repeat (destruct C as [-> | C]; [split; reflexivity | ]).
  subst. split; reflexivity.
Qed.

(** Reading the decimal digits of [n] from an empty accumulator leaves
    [n] in the accumulator. *)
Lemma read_rendered_decimal (fuel : nat) :
  forall (n : Z) (high : option Z) (rest : string),
    0 <= n < 10 ^ Z.of_nat fuel ->
    read_decimal_form 0 high (render_digits fuel 10 n EmptyString ++ rest)
    = read_decimal_form n high rest.
Proof.
  induction fuel as [ | fuel IH]; intros n high rest Hn.
  - simpl in Hn. replace n with 0 by lia. reflexivity.
  - cbn [render_digits].
    assert (Hd : 0 <= n mod 10 < 10) by (apply Z.mod_pos_bound; lia).
    destruct (dec_digit_char (n mod 10) Hd) as [Dv Du].
    pose proof (Z.div_mod n 10 ltac:(lia)) as D.
    destruct (Z.eqb_spec (n / 10) 0) as [Z0 | NZ].
    + cbn [append read_decimal_form]. rewrite Du, Dv. cbn [bind].
      f_equal. lia.
    + rewrite render_digits_acc, string_app_assoc, IH.
      * cbn [append read_decimal_form]. rewrite Du, Dv. cbn [bind].
        f_equal. lia.
      * split; [apply Z.div_pos; lia | ].
        apply Z.div_lt_upper_bound; [lia | ].
        rewrite <- Z.pow_succ_r by lia. rewrite <- Nat2Z.inj_succ. lia.
Qed.

Lemma read_std_to_string (n : Z) (high : option Z) (rest : string) :
  U64.in_range n ->
  read_decimal_form 0 high (std_to_string n ++ rest)
  = read_decimal_form n high rest.
Proof.
  unfold U64.in_range. rewrite modulus64_eq. intros Hn.
  unfold std_to_string, render_u64, radix. apply read_rendered_decimal.
  split; [lia | ].
  apply Z.lt_trans with 18446744073709551616; [lia | reflexivity].
Qed.

Lemma read_to_string (v : u128) :
  wf v -> read_decimal_form 0 None (to_string v) = Some v.
Proof.
  intros [Wl Wh]. unfold to_string. destruct v as [l h]; cbn [lo hi] in *.
  destruct (Z.eqb_spec h 0) as [-> | NZ].
  - rewrite <- (string_app_nil_r (std_to_string l)).
    rewrite read_std_to_string by assumption. reflexivity.
  - rewrite read_std_to_string by assumption.
    cbn [append read_decimal_form]. change (Ascii.eqb "_" "_") with true.
    cbv iota.
    rewrite <- (string_app_nil_r (std_to_string l)).
    rewrite read_std_to_string by assumption. reflexivity.
Qed.

(** X19.  The decimal form [to_string] is unambiguous: reading the
    digits before an optional ["_"] as the high limb and the rest as the
    low limb gives the value back, so different values have different
    decimal forms.  The limbs are written one after the other; the form
    is not the decimal numeral of the 128-bit number. *)
Theorem to_string_reads_back :
  (forall v : u128,
      wf v -> read_decimal_form 0 None (to_string v) = Some v) /\
  (forall u v : u128,
      wf u -> wf v -> to_string u = to_string v -> u = v) /\
  (forall v : u128,
      wf v -> hi v <> 0 ->
      to_string v
      = (std_to_string (hi v) ++ "_" ++ std_to_string (lo v))%string).
Proof.
  split; [exact read_to_string | split].
  - intros u v Wu Wv E.
    pose proof (read_to_string u Wu) as Ru.
    pose proof (read_to_string v Wv) as Rv.
    rewrite E in Ru. congruence.
  - intros v W H. unfold to_string.
    destruct (Z.eqb_spec (hi v) 0); [contradiction | reflexivity].
Qed.

Lemma to_string_reads_back_witness :
  read_decimal_form 0 None (to_string (mk_u128 0 1)) = Some (mk_u128 0 1) /\
  to_string (mk_u128 0 1) = "1_0"%string.
Proof.
  split.
  - apply (proj1 to_string_reads_back (mk_u128 0 1)). wf_by_compute.
  - vm_compute. reflexivity.
Defined.

(** ** The hexadecimal form reads back *)






(** ** The self-test never fails *)

Lemma test_product_passes (a b : Z) (mute : bool) :
  U64.in_range a -> U64.in_range b -> test_product a b mute = true.
Proof.
  intros Ha Hb.
  pose proof (mul64_substrate_irrelevant MSVC_intrinsic a b Ha Hb) as E.
  unfold test_product. unfold mul64 in E. destruct (_umul128 a b) as [l h].
  rewrite <- E. cbn [lo hi]. unfold U64.eqb. rewrite !Z.eqb_refl. reflexivity.
Qed.

Lemma random_operand_in_range (d0 d1 : Z) :
  U32.in_range d0 -> U32.in_range d1 -> U64.in_range (random_operand d0 d1).
Proof.
  unfold U32.in_range, U32.modulus. intros H0 H1.
  unfold random_operand, U64.or. apply lor_in_range.
  - unfold U64.in_range. rewrite modulus64_eq.
    change (2 ^ 32) with 4294967296 in H0. lia.
  - unfold U64.shl, U64.wrap, U64.in_range. apply Z.mod_pos_bound.
    rewrite modulus64_eq. lia.
Qed.

Lemma random_rounds_no_failure (rd : nat -> Z) :
  (forall k, U32.in_range (rd k)) ->
  forall (n i : nat) (failures : Z),
    random_rounds rd n i failures = failures.
Proof.
  intros Hrd. induction n as [ | n IH]; intros i failures; [reflexivity | ].
  cbn [random_rounds].
  rewrite test_product_passes by (apply random_operand_in_range; apply Hrd).
  rewrite Z.add_0_r. apply IH.
Qed.

(** X21.  The self-test of the portable multiplication counts no
    failure, whatever the random device returns: every random pair and
    every corner case agrees with the intrinsic, and [test_product()]
    returns [false] (its result is "some case failed"). *)
Theorem self_test_never_fails (rd : nat -> Z) :
  (forall k, U32.in_range (rd k)) ->
  test_product_failures rd = 0 /\ test_product_all rd = false.
Proof.
  intros Hrd.
  assert (F : test_product_failures rd = 0).
  { unfold test_product_failures.
    rewrite random_rounds_no_failure by exact Hrd.
    vm_compute. reflexivity. }
  split; [exact F | ]. unfold test_product_all. rewrite F. reflexivity.
Qed.

Lemma self_test_never_fails_witness :
  test_product_all (fun k => Z.of_nat k mod 2 ^ 32) = false.
Proof.
  apply (self_test_never_fails (fun k => Z.of_nat k mod 2 ^ 32)).
  intros k. unfold U32.in_range, U32.modulus. apply Z.mod_pos_bound. lia.
Defined.

(** ** Hashing *)

Lemma lxor_cancel_l (h x y : Z) : Z.lxor h x = Z.lxor h y -> x = y.
Proof.
  intros E. apply (f_equal (Z.lxor h)) in E.
  rewrite <- !Z.lxor_assoc, Z.lxor_nilpotent, !Z.lxor_0_l in E. exact E.
Qed.

(** X22.  Values that compare equal hash equal, and the mixing step
    never merges two high limbs: if two values have the same low limb
    and their high limbs have different library hashes, their hashes
    differ. *)
Theorem hash_respects_equality_and_high_limb
        (std_hash : Z -> Z) (u v : u128) :
  (forall x, U64.in_range (std_hash x)) ->
  (operator_eq u v = true -> hash_u128 std_hash u = hash_u128 std_hash v) /\
  (lo u = lo v -> std_hash (hi u) <> std_hash (hi v) ->
   hash_u128 std_hash u <> hash_u128 std_hash v).
Proof.
  intros R. split.
  - rewrite operator_eq_limbs. intros [El Eh].
    unfold hash_u128. rewrite El, Eh. reflexivity.
  - intros El Ne E. apply Ne. unfold hash_u128 in E. rewrite El in E.
    unfold hash_combine, U64.lxor in E. apply lxor_cancel_l in E.
    pose proof (R (hi u)) as Ru. pose proof (R (hi v)) as Rv.
    set (x := std_hash (hi u)) in *. set (y := std_hash (hi v)) in *.
    set (c1 := U64.shl (std_hash (lo v)) 6) in *.
    set (c2 := U64.shr (std_hash (lo v)) 2) in *.
    clearbody x y c1 c2. limbs_to_literals.
    Z.div_mod_to_equations. lia.
Qed.

Lemma hash_respects_equality_and_high_limb_witness :
  hash_u128 (fun x => x mod 2 ^ 64) (mk_u128 5 1)
  <> hash_u128 (fun x => x mod 2 ^ 64) (mk_u128 5 2).
Proof.
  apply (proj2 (hash_respects_equality_and_high_limb
                  (fun x => x mod 2 ^ 64) (mk_u128 5 1) (mk_u128 5 2)
                  (fun x => Z.mod_pos_bound x (2 ^ 64) eq_refl))).
  - reflexivity.
  - vm_compute. congruence.
Defined.
